(** * ChatRAG: ingestion pipeline and citation extraction

    A shallow embedding of [complete_pipeline.py] (ingestion of chat
    transcripts: accessibility decision, record normalisation, turn
    flattening, chunk identifiers) and of [search_wrapper.py] (retriever
    filter and citation extraction), with the properties of the
    specification stated and proved over it.

    Python values are dynamically typed, so the embedding works over a
    small universe [pyval] of the values [json.loads] can produce, and
    every operation that can raise returns a [result]. *)

From Stdlib Require Import List ZArith NArith Bool Lia.
From Stdlib Require Import String Ascii DecimalString DecimalZ DecimalPos.
From Stdlib Require Import PrimFloat.
From Stdlib Require QArith.
From Stdlib Require Import Permutation Sorted.
Import ListNotations.

Set Implicit Arguments.
Set Warnings "-register-all,-inexact-float".

(* ===================================================================== *)
(** ** Python strings: sequences of Unicode code points *)
(* ===================================================================== *)

Definition str := list N.

(** An ASCII literal of the source, as a Python string. *)
Definition lit (s : string) : str :=
  map N_of_ascii (list_ascii_of_string s).

Definition str_eq_dec : forall a b : str, {a = b} + {a <> b} :=
  list_eq_dec N.eq_dec.

Fixpoint str_eqb (a b : str) : bool :=
  match a, b with
  | [], [] => true
  | x :: a', y :: b' => N.eqb x y && str_eqb a' b'
  | _, _ => false
  end.

Fixpoint starts_with (prefix s : str) : bool :=
  match prefix, s with
  | [], _ => true
  | _ :: _, [] => false
  | p :: prefix', c :: s' => N.eqb p c && starts_with prefix' s'
  end.

(** [sub in s] on two strings: substring search. *)
Fixpoint contains (sub s : str) : bool :=
  starts_with sub s ||
  match s with
  | [] => false
  | _ :: s' => contains sub s'
  end.

(** [sep.join(parts)] *)
Fixpoint join (sep : str) (parts : list str) : str :=
  match parts with
  | [] => []
  | [p] => p
  | p :: rest => p ++ sep ++ join sep rest
  end.


(* ===================================================================== *)
(** ** Python values and exceptions *)
(* ===================================================================== *)

(** The values [json.loads] returns: [None], [bool], [int], [float],
    [str], [list] and [dict] with string keys.  A dict keeps insertion
    order, so it is an association list; lookups take the first binding. *)
Inductive pyval : Type :=
| PNone
| PBool (b : bool)
| PInt (z : Z)
| PFloat (f : float)
| PStr (s : str)
| PList (xs : list pyval)
| PDict (kvs : list (str * pyval)).

Inductive exn : Type :=
| TypeError
| AttributeError
| KeyError
| ValueError
| IndexError
| ValidationError
| UnicodeEncodeError.

Inductive result (A : Type) : Type :=
| Ok (a : A)
| Raise (e : exn).

Arguments Ok {A} a.
Arguments Raise {A} e.

Definition bind {A B : Type} (r : result A) (k : A -> result B) : result B :=
  match r with
  | Ok a => k a
  | Raise e => Raise e
  end.

Declare Scope py_scope.
Delimit Scope py_scope with py.
Notation "x <- r ;; k" := (bind r (fun x => k))
  (at level 61, r at next level, right associativity) : py_scope.
Notation "r ;;; k" := (bind r (fun _ => k))
  (at level 61, right associativity) : py_scope.
Open Scope py_scope.

(** Run [body] on each element in order, collecting what each iteration
    appends; the first exception ends the loop. *)
Fixpoint for_each {A B : Type} (body : A -> result (list B)) (xs : list A)
  : result (list B) :=
  match xs with
  | [] => Ok []
  | x :: rest =>
      out <- body x ;;
      outs <- for_each body rest ;;
      Ok (out ++ outs)
  end.

(* ===================================================================== *)
(** ** Dictionaries *)
(* ===================================================================== *)

Module Dict.

Definition t := list (str * pyval).

Fixpoint get (k : str) (d : t) : option pyval :=
  match d with
  | [] => None
  | (k', v) :: d' => if str_eqb k k' then Some v else get k d'
  end.

Definition mem (k : str) (d : t) : bool :=
  match get k d with Some _ => true | None => false end.

(** [d.get(k, default)] *)
Definition get_default (k : str) (default : pyval) (d : t) : pyval :=
  match get k d with Some v => v | None => default end.

(** [d[k] = v]: overwrite in place, or append a new key. *)
Fixpoint set (k : str) (v : pyval) (d : t) : t :=
  match d with
  | [] => [(k, v)]
  | (k', v') :: d' =>
      if str_eqb k k' then (k', v) :: d' else (k', v') :: set k v d'
  end.

Definition keys (d : t) : list str := map fst d.

End Dict.

(* ===================================================================== *)
(** ** The Python operations the two modules use *)
(* ===================================================================== *)

(** Truth value of an object ([if not x], [x or y]). *)
Definition truthy (v : pyval) : bool :=
  match v with
  | PNone => false
  | PBool b => b
  | PInt z => negb (Z.eqb z 0)
  | PFloat f => negb (PrimFloat.eqb f 0%float)
  | PStr s => match s with [] => false | _ => true end
  | PList xs => match xs with [] => false | _ => true end
  | PDict kvs => match kvs with [] => false | _ => true end
  end.

(** [x or y] *)
Definition py_or (x y : pyval) : pyval := if truthy x then x else y.

(** [k in v] for a string [k]. *)
Definition py_in (k : str) (v : pyval) : result bool :=
  match v with
  | PDict kvs => Ok (Dict.mem k kvs)
  | PList xs =>
      Ok (existsb (fun x => match x with PStr s => str_eqb k s | _ => false end) xs)
  | PStr s => Ok (contains k s)
  | _ => Raise TypeError
  end.

(** [v[k]] for a string [k]. *)
Definition getitem (v : pyval) (k : str) : result pyval :=
  match v with
  | PDict kvs =>
      match Dict.get k kvs with Some x => Ok x | None => Raise KeyError end
  | _ => Raise TypeError
  end.

(** [v.get(k, default)]: only dicts have the method. *)
Definition py_get (v : pyval) (k : str) (default : pyval) : result pyval :=
  match v with
  | PDict kvs => Ok (Dict.get_default k default kvs)
  | _ => Raise AttributeError
  end.

(** [for x in v]: the elements of a list, the keys of a dict, the
    characters of a string. *)
Definition py_iter (v : pyval) : result (list pyval) :=
  match v with
  | PList xs => Ok xs
  | PDict kvs => Ok (map PStr (Dict.keys kvs))
  | PStr s => Ok (map (fun c => PStr [c]) s)
  | _ => Raise TypeError
  end.

(** [p >= 0.9].  The literal is the double nearest to 9/10, as Python
    reads it; floats compare as IEEE doubles (a NaN is not [>=]
    anything); an int (and a bool, which is an int) is compared exactly,
    and an integer is at least 0.9 exactly when it is at least 1. *)
Definition ge_0_9 (p : pyval) : result bool :=
  match p with
  | PFloat f => Ok (PrimFloat.leb 0.9%float f)
  | PInt z => Ok (1 <=? z)%Z
  | PBool b => Ok b
  | _ => Raise TypeError
  end.

(** [1 - p] *)
Definition one_minus (p : pyval) : result pyval :=
  match p with
  | PFloat f => Ok (PFloat (PrimFloat.sub 1%float f))
  | PInt z => Ok (PInt (1 - z))
  | PBool b => Ok (PInt (if b then 0 else 1))
  | _ => Raise TypeError
  end.

(** A surrogate code point, U+D800 to U+DFFF: a string read from JSON
    holds one when an escape names half of a pair. *)
Definition is_surrogate (c : N) : bool := N.leb 55296 c && N.leb c 57343.

(** [print(s)]: standard output encodes the text as UTF-8, with its
    default strict error handler, and a surrogate has no encoding. *)
Definition py_print (s : str) : result unit :=
  if existsb is_surrogate s then Raise UnicodeEncodeError else Ok tt.

(** [s.lstrip(c)] for a one-character [c]. *)
Fixpoint lstrip (c : N) (s : str) : str :=
  match s with
  | [] => []
  | x :: s' => if N.eqb x c then lstrip c s' else s
  end.

(** Decimal rendering of an integer, as [str(i)] and [f"{i}"] give it. *)
Definition str_of_Z (z : Z) : str :=
  lit (NilEmpty.string_of_int (Z.to_int z)).

(* ===================================================================== *)
(** ** complete_pipeline.py *)
(* ===================================================================== *)

(** [langchain_core.documents.Document] *)
Record Document : Type := mkDocument {
  page_content : str;
  metadata : Dict.t
}.

(** What a call of [s3_json_load_ingest] does, seen from its caller and
    from the vector store. *)
Inductive outcome : Type :=
| Raises (e : exn)                        (* an exception escapes the call *)
| ReturnsEmpty                            (* [return []] *)
| Upserts (chunked_docs : list Document). (* the batch handed to
                                             [PineconeVectorStore.from_documents] *)

(** [enumerate(xs)] *)
Definition enumerate {A : Type} (xs : list A) : list (nat * A) :=
  combine (seq 0 (List.length xs)) xs.

Section Ingestion.

(** The interpreter's [repr] of a float and of a string; they are only
    reached when an identifier of the input is a float or a container. *)
Variable repr_float : float -> str.
Variable repr_str : str -> str.

(** [os.environ] *)
Variable environ : list (str * str).

(** [splitter.split_text], the configured text splitter. *)
Variable split_text : str -> list str.

(** [urllib.parse.urlparse]: the [netloc] and the [path] of a URL, or
    the [ValueError] it raises on a malformed one. *)
Variable urlparse : str -> result (str * str).

(** [boto3.client(service)]: the creation of a client, which can
    raise. *)
Variable boto3_client : str -> result unit.

Fixpoint py_repr (v : pyval) : str :=
  match v with
  | PNone => lit "None"
  | PBool true => lit "True"
  | PBool false => lit "False"
  | PInt z => str_of_Z z
  | PFloat f => repr_float f
  | PStr s => repr_str s
  | PList xs => lit "[" ++ join (lit ", ") (map py_repr xs) ++ lit "]"
  | PDict kvs =>
      lit "{"
      ++ join (lit ", ")
           (map (fun kv => repr_str (fst kv) ++ lit ": " ++ py_repr (snd kv)) kvs)
      ++ lit "}"
  end.

(** [str(v)], which is what an f-string field [{v}] inserts. *)
Definition py_str (v : pyval) : str :=
  match v with
  | PStr s => s
  | _ => py_repr v
  end.

(** [os.getenv(k)] *)
Definition getenv (k : str) : pyval :=
  match find (fun kv => str_eqb k (fst kv)) environ with
  | Some kv => PStr (snd kv)
  | None => PNone
  end.

(** Lines 45-64: the accessibility label and its confidence score, from
    the classifier's response, with the three [print] calls around the
    decision.  The first two read all four fields, so a missing one
    raises here. *)
Definition accessibility_decision (lambda_response : pyval)
  : result (str * pyval) :=
  body <- getitem lambda_response (lit "body") ;;
  category_one <- getitem body (lit "category_one") ;;
  category_two <- getitem body (lit "category_two") ;;
  probability_one <- getitem category_one (lit "probability") ;;
  name_one <- getitem category_one (lit "name") ;;
  py_print (lit "Category One Probability: " ++ py_str probability_one
            ++ lit ", Name: " ++ py_str name_one) ;;;
  probability_two <- getitem category_two (lit "probability") ;;
  name_two <- getitem category_two (lit "name") ;;
  py_print (lit "Category Two Probability: " ++ py_str probability_two
            ++ lit ", Name: " ++ py_str name_two) ;;;
  p <- getitem category_two (lit "probability") ;;
  work <- ge_0_9 p ;;
  decision <- (if work then Ok (lit "work", p)
               else
                 score <- one_minus p ;;
                 Ok (lit "personal", score)) ;;
  py_print (lit "Final Decision - Accessibility: " ++ fst decision
            ++ lit ", Accessibility Confidence Score: " ++ py_str (snd decision)) ;;;
  Ok decision.

(** Lines 83-99: the shapes of input accepted; [None] is the
    "not recognized" branch. *)
Definition normalize (data : pyval) : option pyval :=
  match data with
  | PDict kvs =>
      if Dict.mem (lit "messages") kvs then Some (PList [data])
      else match Dict.get (lit "data") kvs with
           | Some chats => Some chats
           | None => None
           end
  | PList _ => Some data
  | _ => None
  end.

(** [Document(page_content=content, metadata=meta)]: the model declares
    [page_content] a string and refuses anything else. *)
Definition new_Document (content : pyval) (meta : Dict.t) : result Document :=
  match content with
  | PStr s => Ok (mkDocument s meta)
  | _ => Raise ValidationError
  end.

(** Lines 110-126: the body of the loop over the messages of a chat. *)
Definition message_document (accessibility : str) (score : pyval)
    (chat msg : pyval) : result (list Document) :=
  message <- py_get msg (lit "message") PNone ;;
  let content := py_or message (PStr []) in
  chat_engine <- py_get chat (lit "chat_engine") (getenv (lit "CHAT_ENGINE")) ;;
  chat_account <- py_get chat (lit "chat_user") (getenv (lit "CHAT_USER")) ;;
  chat_id <- py_get chat (lit "chat_id") PNone ;;
  title <- py_get chat (lit "title") PNone ;;
  chat_creation_time <- py_get chat (lit "chat_creation_time") PNone ;;
  turn_id <- py_get msg (lit "turn_id") PNone ;;
  author <- py_get msg (lit "author") PNone ;;
  turn_timestamp <- py_get msg (lit "turn_timestamp") PNone ;;
  let meta :=
    [ (lit "chat_engine", chat_engine);
      (lit "chat_account", chat_account);
      (lit "chat_id", chat_id);
      (lit "title", title);
      (lit "chat_creation_time", chat_creation_time);
      (lit "turn_id", turn_id);
      (lit "author", author);
      (lit "turn_timestamp", turn_timestamp);
      (lit "accessibility", PStr accessibility);
      (lit "accessibility_confidence_score", score) ] in
  doc <- new_Document content meta ;;
  Ok [doc].

(** Lines 105-126: the body of the loop over the chats. *)
Definition chat_documents (accessibility : str) (score : pyval)
    (chat : pyval) : result (list Document) :=
  has_messages <- py_in (lit "messages") chat ;;
  if negb has_messages then
    chat_id <- py_get chat (lit "chat_id") PNone ;;
    py_print (lit "No messages found for chat_id: " ++ py_str chat_id) ;;;
    Ok []
  else
    messages <- getitem chat (lit "messages") ;;
    msgs <- py_iter messages ;;
    for_each (message_document accessibility score chat) msgs.

(** Lines 101-126 *)
Definition flatten (accessibility : str) (score : pyval) (chats : pyval)
  : result (list Document) :=
  cs <- py_iter chats ;;
  for_each (chat_documents accessibility score) cs.

(** Lines 146-150: the chunks of one document. *)
Definition chunk_document (d : Document) : list Document :=
  map (fun ic =>
         let i := fst ic in
         let md := Dict.set (lit "chunk_index") (PInt (Z.of_nat i)) (metadata d) in
         let chunk_id :=
           py_str (Dict.get_default (lit "chat_id") PNone md) ++ lit "::"
           ++ py_str (Dict.get_default (lit "turn_id") PNone md) ++ lit "::"
           ++ str_of_Z (Z.of_nat i) in
         mkDocument (snd ic) (Dict.set (lit "chunk_id") (PStr chunk_id) md))
      (enumerate (split_text (page_content d))).

(** Lines 83-150, the part of the [try] block between the download and
    the vector store. *)
Definition process (accessibility : str) (score : pyval) (data : pyval)
  : result outcome :=
  match normalize data with
  | None => Ok ReturnsEmpty
  | Some chats =>
      docs <- flatten accessibility score chats ;;
      match docs with
      | [] => Ok ReturnsEmpty
      | _ => Ok (Upserts (flat_map chunk_document docs))
      end
  end.

(** Lines 66-72: the bucket and the key the URI names, and the S3
    client; still outside the [try]. *)
Definition locate (s3_uri : str) : result (str * str) :=
  parsed_uri <- urlparse s3_uri ;;
  let bucket_name := fst parsed_uri in
  let file_key := lstrip 47 (snd parsed_uri) in
  boto3_client (lit "s3") ;;;
  Ok (bucket_name, file_key).

(** [s3_json_load_ingest], given what the classifier answered ([None]
    when the invocation failed) and the JSON value [data] read from the
    bucket at lines 76-78.  The decision, the parsing of the URI and the
    creation of the client are outside the [try]; inside it every
    exception becomes [return []]. *)
Definition s3_json_load_ingest (s3_uri : str) (lambda_response : pyval)
    (data : pyval) : outcome :=
  if negb (truthy lambda_response) then ReturnsEmpty
  else
    match accessibility_decision lambda_response with
    | Raise e => Raises e
    | Ok (accessibility, score) =>
        match locate s3_uri with
        | Raise e => Raises e
        | Ok _ =>
            match process accessibility score data with
            | Ok o => o
            | Raise _ => ReturnsEmpty
            end
        end
    end.

End Ingestion.

(* ===================================================================== *)
(** ** The text splitter *)
(* ===================================================================== *)

Module Splitter.

Section Config.

Variable chunk_size : nat.
Variable chunk_overlap : nat.

Definition nonempty (s : str) : bool :=
  match s with [] => false | _ => true end.

Definition total (pieces : list str) : nat := List.length (List.concat pieces).

(** Modelled from the spec: cutting at a separator, for the chunker of
    section 4.3 (whose class comes from [langchain_text_splitters], not
    part of the repository).  [text] is cut at the occurrences of [sep],
    found left to right without overlap; [piece] is the piece being
    read and [skip] the number of characters of a separator just found
    that are still to be passed.  Every piece after the first starts
    with the separator. *)
Fixpoint cut_at (sep : str) (skip : nat) (piece : str) (text : str)
  : list str :=
  match text with
  | [] => [piece]
  | c :: rest =>
      match skip with
      | S k => cut_at sep k (piece ++ [c]) rest
      | O =>
          if starts_with sep text
          then piece :: cut_at sep (List.length sep - 1) [c] rest
          else cut_at sep 0 (piece ++ [c]) rest
      end
  end.

(** Modelled from the spec: the splitting step of the chunker of section
    4.3 (the class [RecursiveCharacterTextSplitter] is imported from
    [langchain_text_splitters], whose source is not part of the
    repository).  The pieces of [text] for one separator strategy; the
    empty separator is the character boundary.  Separators stay with
    the pieces, so that concatenating the pieces gives the text back;
    empty pieces are dropped. *)
Definition pieces_of (sep : str) (text : str) : list str :=
  filter nonempty
    (match sep with
     | [] => map (fun c => [c]) text
     | _ => cut_at sep 0 [] text
     end).

(** Modelled from the spec: closing a segment in the chunker of section
    4.3.  The segment made of the pieces collected so far, if there is
    one. *)
Definition emit (current : list str) : list str :=
  match List.concat current with
  | [] => []
  | segment => [segment]
  end.

(** Modelled from the spec: the overlap of the chunker of section 4.3.
    The trailing context carried into the next segment: leading pieces
    of the segment just closed are dropped until what remains is at most
    [chunk_overlap] long and leaves room for the next piece, of length
    [next]. *)
Fixpoint carry_over (next : nat) (current : list str) : list str :=
  match current with
  | [] => []
  | _ :: current' =>
      if (chunk_overlap <? total current)
         || (chunk_size <? total current + next)
      then carry_over next current'
      else current
  end.

(** Modelled from the spec: the merging step of the chunker of section
    4.3.  Adjacent small pieces are concatenated up to [chunk_size];
    when the next piece does not fit, the segment is closed and the next
    one starts with the trailing context of the one just closed. *)
Fixpoint merge (current : list str) (pieces : list str) : list str :=
  match pieces with
  | [] => emit current
  | d :: rest =>
      if chunk_size <? total current + List.length d
      then
        match current with
        | [] => merge [d] rest
        | _ => emit current ++ merge (carry_over (List.length d) current ++ [d]) rest
        end
      else merge (current ++ [d]) rest
  end.

(** Modelled from the spec: the pass over the pieces of one separator
    in the chunker of section 4.3.  Small pieces are collected in [good]
    and merged; a piece that still exceeds [chunk_size] is handed to
    [resplit], the chunker for the finer separators. *)
Fixpoint walk (resplit : str -> list str) (good : list str) (pieces : list str)
  : list str :=
  match pieces with
  | [] => merge [] good
  | s :: rest =>
      if List.length s <=? chunk_size
      then walk resplit (good ++ [s]) rest
      else merge [] good ++ resplit s ++ walk resplit [] rest
  end.

(** Modelled from the spec: the chunker of section 4.3.  The separators
    are tried from coarsest to finest; a piece that exceeds [chunk_size]
    when no separator is left is a segment of its own. *)
Fixpoint split_with (separators : list str) (text : str) : list str :=
  match separators with
  | [] => emit [text]
  | sep :: finer => walk (split_with finer) [] (pieces_of sep text)
  end.

(** The pieces that still exceed [chunk_size] once every separator has
    been tried: the atomic tokens of section 4.3. *)
Fixpoint atomic_tokens (separators : list str) (text : str) : list str :=
  match separators with
  | [] => if chunk_size <? List.length text then [text] else []
  | sep :: finer =>
      flat_map (atomic_tokens finer)
        (filter (fun s => negb (List.length s <=? chunk_size))
           (pieces_of sep text))
  end.

End Config.

(** Lines 135-139: the configuration of the pipeline. *)
Definition separators : list str :=
  [ [10; 10]%N;    (* paragraph break *)
    [10]%N;        (* line break *)
    [32]%N;        (* space *)
    [] ].          (* character boundary *)

Definition split_text (text : str) : list str :=
  split_with 150 30 separators text.

End Splitter.

(* ===================================================================== *)
(** ** search_wrapper.py *)
(* ===================================================================== *)

(** The dict [ref_data] of [_extract_references], with its keys as
    fields. *)
Record reference : Type := mkReference {
  source_id : str;
  title : pyval;
  chat_id : pyval;
  turn_id : pyval;
  timestamp : pyval
}.

(** Lines 63-65: the filter [_get_retrieved_docs] sends with the
    similarity search. *)
Definition pinecone_filter (chat_user : option str) : Dict.t :=
  match chat_user with
  | Some (c :: u) => [(lit "chat_user", PDict [(lit "$eq", PStr (c :: u))])]
  | _ => []
  end.

(** A metadata record passes a filter when each field the filter names
    satisfies its condition; [holds] is the vector store's evaluation of
    one condition on the value of a field ([None] when the record has no
    such field).  The store is an external service. *)
Definition filter_matches (holds : pyval -> option pyval -> bool)
    (filter : Dict.t) (meta : Dict.t) : bool :=
  forallb (fun fc => holds (snd fc) (Dict.get (fst fc) meta)) filter.

(** Modelled from the spec: the evaluation of an equality condition by
    the vector store (section 4.5: the search is constrained to the
    documents whose field equals the given value; the store itself is
    not part of the repository).  A condition [{"$eq": value}] holds
    when the record has the field with that value. *)
Definition condition_holds (condition : pyval) (field : option pyval) : bool :=
  match condition with
  | PDict [(op, PStr expected)] =>
      str_eqb op (lit "$eq")
      && match field with
         | Some (PStr actual) => str_eqb actual expected
         | _ => false
         end
  | _ => false
  end.

(** Stable insertion sort on keyed items, as [list.sort(key=...)]
    orders them: ascending keys, equal keys in their original order. *)
Fixpoint insert_keyed {A : Type} (x : Z * A) (l : list (Z * A)) : list (Z * A) :=
  match l with
  | [] => [x]
  | y :: l' =>
      if (fst x <=? fst y)%Z then x :: l else y :: insert_keyed x l'
  end.

Fixpoint sort_keyed {A : Type} (l : list (Z * A)) : list (Z * A) :=
  match l with
  | [] => []
  | x :: l' => insert_keyed x (sort_keyed l')
  end.

(** [docs[idx]] on a list. *)
Definition list_getitem {A : Type} (xs : list A) (idx : Z) : result A :=
  let n := Z.of_nat (List.length xs) in
  let i := if (idx <? 0)%Z then (idx + n)%Z else idx in
  if (i <? 0)%Z then Raise IndexError
  else match nth_error xs (Z.to_nat i) with
       | Some x => Ok x
       | None => Raise IndexError
       end.

(** [f"[{index_str}]"] *)
Definition bracketed (index_str : str) : str :=
  lit "[" ++ index_str ++ lit "]".

(** Lines 99-107: the reference built from a cited document. *)
Definition ref_data (index_str : str) (doc : Document) : reference :=
  {| source_id := bracketed index_str;
     title := Dict.get_default (lit "title") (PStr (lit "Unknown Title")) (metadata doc);
     chat_id := Dict.get_default (lit "chat_id") (PStr (lit "N/A")) (metadata doc);
     turn_id := Dict.get_default (lit "turn_id") (PStr (lit "N/A")) (metadata doc);
     timestamp := Dict.get_default (lit "timestamp") (PStr (lit "N/A")) (metadata doc) |}.

Section Citations.

(** The interpreter's table of decimal digits: the value of a code point
    of Unicode category Nd, which is what [\d] matches and what [int]
    reads. *)
Variable decimal : N -> option Z.

(** The order in which a [set] of strings is iterated; it varies from
    run to run. *)
Variable set_order : list str -> list str.

(** [sys.get_int_max_str_digits()]: [int] refuses longer strings of
    digits; 0 means no limit. *)
Variable int_max_str_digits : nat.

Definition is_digit (c : N) : bool :=
  match decimal c with Some _ => true | None => false end.

Definition is_open (c : N) : bool := N.eqb c 91 || N.eqb c 12304.   (* [ and U+3010 *)
Definition is_close (c : N) : bool := N.eqb c 93 || N.eqb c 12305.  (* ] and U+3011 *)

(** The rest of [(\d+)(?:\]|】)] after a first digit: as many digits as
    possible, then a closing bracket, giving back digits when that
    fails.  Returns the digits taken and the number of characters
    matched. *)
Fixpoint digits_then_close (s : str) : option (str * nat) :=
  match s with
  | [] => None
  | c :: s' =>
      match (if is_digit c then digits_then_close s' else None) with
      | Some (ds, n) => Some (c :: ds, S n)
      | None => if is_close c then Some ([], 1%nat) else None
      end
  end.

(** A match of the whole pattern at the head of [s]: group 1 and the
    length of the match. *)
Definition match_marker (s : str) : option (str * nat) :=
  match s with
  | o :: d :: s' =>
      if is_open o && is_digit d then
        match digits_then_close s' with
        | Some (ds, n) => Some (d :: ds, (2 + n)%nat)
        | None => None
        end
      else None
  | _ => None
  end.

(** [re.findall]: the matches from left to right, without overlap;
    [skip] counts the characters of the last match still to be passed. *)
Fixpoint findall_from (skip : nat) (s : str) : list str :=
  match s with
  | [] => []
  | _ :: s' =>
      match skip with
      | S k => findall_from k s'
      | O =>
          match match_marker s with
          | Some (group, n) => group :: findall_from (n - 1) s'
          | None => findall_from 0 s'
          end
      end
  end.

Definition findall (s : str) : list str := findall_from 0 s.

Fixpoint digits_value (acc : Z) (s : str) : option Z :=
  match s with
  | [] => Some acc
  | c :: s' =>
      match decimal c with
      | Some d => digits_value (10 * acc + d) s'
      | None => None
      end
  end.

(** [int(s)] on the strings that reach it here, which are runs of
    digits. *)
Definition py_int (s : str) : result Z :=
  if Nat.ltb 0 int_max_str_digits && Nat.ltb int_max_str_digits (List.length s)
  then Raise ValueError
  else
    match s with
    | [] => Raise ValueError
    | _ => match digits_value 0 s with
           | Some z => Ok z
           | None => Raise ValueError
           end
    end.

Fixpoint take_digits (s : str) : str :=
  match s with
  | [] => []
  | c :: s' => if is_digit c then c :: take_digits s' else []
  end.

(** [re.search(r'\d+', s)]: the first run of digits. *)
Fixpoint search_digits (s : str) : option str :=
  match s with
  | [] => None
  | c :: s' => if is_digit c then Some (take_digits s) else search_digits s'
  end.

(** Lines 91-110: the body of the loop over the cited indices. *)
Definition resolve (docs : list Document) (index_str : str)
  : result (list reference) :=
  let attempt :=
    n <- py_int index_str ;;
    let idx := (n - 1)%Z in
    if (0 <=? idx)%Z && (idx <? Z.of_nat (List.length docs))%Z then
      doc <- list_getitem docs idx ;;
      Ok [ref_data index_str doc]
    else Ok []
  in
  match attempt with
  | Raise ValueError => Ok []     (* except ValueError: continue *)
  | r => r
  end.

(** Line 113: the key of the final sort. *)
Definition sort_key (r : reference) : result Z :=
  match search_digits (source_id r) with
  | Some digits => py_int digits
  | None => Raise AttributeError    (* [None.group()] *)
  end.

Definition _extract_references (response_text : str) (docs : list Document)
  : result (list reference) :=
  let cited_indices := set_order (nodup str_eq_dec (findall response_text)) in
  references <- for_each (resolve docs) cited_indices ;;
  keyed <- for_each (fun r => k <- sort_key r ;; Ok [(k, r)]) references ;;
  Ok (map snd (sort_keyed keyed)).

End Citations.

(** The ASCII digits, which every table of decimal digits contains. *)
Definition ascii_decimal (c : N) : option Z :=
  if (N.leb 48 c && N.leb c 57)%bool then Some (Z.of_N c - 48)%Z else None.

(* ===================================================================== *)
(** ** complete_pipeline.py: the index writer *)
(* ===================================================================== *)

(** The two writing calls [s3_json_load_ingest] makes on the vector
    store, with the arguments that vary.  The construction of the client
    and the listing of the indexes (lines 156 and 159) come before them
    and are not recorded. *)
Inductive store_call : Type :=
| create_index (name : str) (dimension : Z) (metric : str) (cloud region : str)
| from_documents (documents : list Document) (index_name : str).

(** [os.getenv(k, default)] *)
Definition getenv_or (environ : list (str * str)) (k default : str) : str :=
  match find (fun kv => str_eqb k (fst kv)) environ with
  | Some kv => snd kv
  | None => default
  end.

(** [x in names] for a string [x] and a list of values. *)
Definition str_in (x : str) (names : list pyval) : bool :=
  existsb (fun n => match n with PStr s => str_eqb x s | _ => false end) names.

(** Lines 153-174: what is done with the chunked documents, given the
    entries [pc.list_indexes()] answers.  The calls are taken to
    return; reading the name of an entry can raise, before any call. *)
Definition index_writer (environ : list (str * str)) (list_indexes : list pyval)
    (chunked_docs : list Document) : result (list store_call) :=
  let INDEX_NAME := getenv_or environ (lit "PINECONE_INDEX") [] in
  names <- for_each (fun i => name <- getitem i (lit "name") ;; Ok [name])
             list_indexes ;;
  let created :=
    if negb (str_in INDEX_NAME names)
    then [create_index INDEX_NAME 768 (lit "cosine") (lit "aws") (lit "us-east-1")]
    else [] in
  Ok (created ++ [from_documents chunked_docs INDEX_NAME]).

(* ===================================================================== *)
(** ** search_wrapper.py: the prompt context and the query *)
(* ===================================================================== *)

(** Lines 77-80: one entry of the context, [f"Source [{i+1}]:\n{doc.page_content}\n\n"]. *)
Definition source_entry (i : nat) (doc : Document) : str :=
  lit "Source [" ++ str_of_Z (Z.of_nat i + 1) ++ lit "]:" ++ [10%N]
  ++ page_content doc ++ [10%N; 10%N].

Definition _format_docs_with_ids (docs : list Document) : str :=
  fold_left
    (fun formatted_string idoc =>
       formatted_string ++ source_entry (fst idoc) (snd idoc))
    (enumerate docs) [].

(** What [query] returns: the dict with keys "answer" and "references". *)
Record query_result : Type := mkQueryResult {
  answer : str;
  references : list reference
}.

Section Query.

Variable decimal : N -> option Z.
Variable set_order : list str -> list str.
Variable int_max_str_digits : nat.

(** [self.vector_store.similarity_search(query, k=k, filter=filter)] *)
Variable similarity_search : str -> nat -> Dict.t -> list Document.

(** [self.chain.invoke({"context": context, "question": question})]:
    the prompt, the model and the output parser. *)
Variable chain_invoke : str -> str -> str.

Definition _get_retrieved_docs (chat_user : option str) (query : str) (k : nat)
  : list Document :=
  similarity_search query k (pinecone_filter chat_user).

(** Lines 117-140 *)
Definition query (query : str) (chat_user : option str) : result query_result :=
  let docs := _get_retrieved_docs chat_user query 10 in
  let context_text := _format_docs_with_ids docs in
  let ai_response := chain_invoke context_text query in
  references <- _extract_references decimal set_order int_max_str_digits
                  ai_response docs ;;
  Ok (mkQueryResult ai_response references).

End Query.

(* ===================================================================== *)
(** ** Vocabulary of the properties *)
(* ===================================================================== *)





(** An interpreter for the examples: a URI with a bucket and a key, and
    clients that are created. *)
Definition plain_urlparse (uri : str) : result (str * str) :=
  Ok (lit "il-raw-chats", lit "/agent_conversation/pdf_to_json.json").
Definition plain_client (service : str) : result unit := Ok tt.
Definition plain_uri : str :=
  lit "s3://il-raw-chats/agent_conversation/pdf_to_json.json".


(** A classifier response, as the service of section 6 answers. *)
Definition classified (p : pyval) : pyval :=
  PDict [ (lit "body",
           PDict [ (lit "category_one",
                    PDict [ (lit "probability", PFloat 0.25%float);
                            (lit "name", PStr (lit "personal")) ]);
                   (lit "category_two",
                    PDict [ (lit "probability", p);
                            (lit "name", PStr (lit "work")) ]) ]) ].



(** A JSON value of none of the three shapes of section 4.1. *)
Definition unrecognized (data : pyval) : Prop :=
  match data with
  | PDict kvs =>
      Dict.mem (lit "messages") kvs = false /\ Dict.mem (lit "data") kvs = false
  | PList _ => False
  | _ => True
  end.

(** The number of turns of a chat record that carries a "messages"
    collection; a record without one counts for nothing. *)
Definition turn_count (chat : pyval) : nat :=
  match chat with
  | PDict kvs =>
      match Dict.get (lit "messages") kvs with
      | Some messages =>
          match py_iter messages with
          | Ok msgs => List.length msgs
          | Raise _ => 0
          end
      | None => 0
      end
  | _ => 0
  end.

Definition chunk_id_of (c : Document) : option pyval :=
  Dict.get (lit "chunk_id") (metadata c).

(** [chat_id :: turn_id :: chunk_index] for the [i]-th chunk of [d]. *)
Definition expected_chunk_id (repr_float : float -> str) (repr_str : str -> str)
    (d : Document) (i : nat) : pyval :=
  PStr (py_str repr_float repr_str (Dict.get_default (lit "chat_id") PNone (metadata d))
        ++ lit "::"
        ++ py_str repr_float repr_str (Dict.get_default (lit "turn_id") PNone (metadata d))
        ++ lit "::"
        ++ str_of_Z (Z.of_nat i)).

(** The rendered [chat_id::turn_id] of a content unit, the part of the
    identifiers all its chunks share. *)
Definition turn_key (repr_float : float -> str) (repr_str : str -> str)
    (d : Document) : str :=
  py_str repr_float repr_str (Dict.get_default (lit "chat_id") PNone (metadata d))
  ++ lit "::"
  ++ py_str repr_float repr_str (Dict.get_default (lit "turn_id") PNone (metadata d)).

(** Two content units with the same text and the same identifiers. *)
Definition same_turn (d d' : Document) : Prop :=
  page_content d = page_content d'
  /\ Dict.get (lit "chat_id") (metadata d) = Dict.get (lit "chat_id") (metadata d')
  /\ Dict.get (lit "turn_id") (metadata d) = Dict.get (lit "turn_id") (metadata d').

(** A chat whose two turns carry no identifiers. *)
Definition anonymous_turns : pyval :=
  PDict [ (lit "messages",
           PList [ PDict [ (lit "message", PStr (lit "hello")) ];
                   PDict [ (lit "message", PStr (lit "world")) ] ]) ].



(** A batch of two chats, the second without turns. *)
Definition two_chats : pyval :=
  PList [ PDict [ (lit "chat_id", PStr (lit "c1"));
                  (lit "chat_user", PStr (lit "alice"));
                  (lit "title", PStr (lit "Windows settings"));
                  (lit "messages",
                   PList [ PDict [ (lit "turn_id", PInt 1);
                                   (lit "author", PStr (lit "user"));
                                   (lit "turn_timestamp", PStr (lit "2024-05-01T10:00:00"));
                                   (lit "message", PStr (lit "How do I reset it?")) ];
                           PDict [ (lit "turn_id", PInt 2);
                                   (lit "author", PStr (lit "assistant")) ] ]) ];
          PDict [ (lit "chat_id", PStr (lit "c2")) ] ].

(** An interpreter for the examples: its [repr]s are never reached. *)
Definition plain_repr_float (f : float) : str := lit "float".
Definition plain_repr_str (s : str) : str := lit "'" ++ s ++ lit "'".

(** What one cited index contributes to the references: the reference
    of the candidate at its 1-based position, when [int] reads the index
    and the position exists. *)
Definition resolved (decimal : N -> option Z) (int_max_str_digits : nat)
    (docs : list Document) (index_str : str) : list reference :=
  match py_int decimal int_max_str_digits index_str with
  | Ok n =>
      if (1 <=? n)%Z && (n <=? Z.of_nat (List.length docs))%Z then
        match nth_error docs (Z.to_nat (n - 1)) with
        | Some doc => [ref_data index_str doc]
        | None => []
        end
      else []
  | Raise _ => []
  end.

(** A non-empty run of decimal digits. *)
Definition digit_run (decimal : N -> option Z) (s : str) : Prop :=
  s <> [] /\ forallb (is_digit decimal) s = true.

(** Three retrieved candidates. *)
Definition candidate (title : string) : Document :=
  mkDocument (lit "text") [ (lit "title", PStr (lit title)) ].

Definition three_candidates : list Document :=
  [ candidate "first"; candidate "second"; candidate "third" ].

(** Line 46: the sentence the prompt asks for when the context has no
    answer. *)
Definition refusal : str :=
  lit "I don't have enough information to answer that.".

(** An entry of the listing of indexes. *)
Definition listed_index (name : string) : pyval :=
  PDict [ (lit "name", PStr (lit name)); (lit "dimension", PInt 768) ].

(* ===================================================================== *)
(** ** Basic facts *)
(* ===================================================================== *)

Lemma str_eqb_eq : forall a b : str, str_eqb a b = true <-> a = b.
Proof.
  induction a as [|x a IH]; destruct b as [|y b]; simpl; split; intro H;
    try reflexivity; try discriminate.
  - apply andb_true_iff in H. destruct H as [Hx Hr].
    apply N.eqb_eq in Hx. apply IH in Hr. congruence.
  - injection H as -> ->. rewrite N.eqb_refl. simpl. now apply IH.
Qed.

Lemma str_eqb_refl : forall a : str, str_eqb a a = true.
Proof. intro a. now apply str_eqb_eq. Qed.

Lemma str_eqb_neq : forall a b : str, a <> b -> str_eqb a b = false.
Proof.
  intros a b H. destruct (str_eqb a b) eqn:E; [|reflexivity].
  apply str_eqb_eq in E. contradiction.
Qed.

Lemma get_set_same : forall k v d, Dict.get k (Dict.set k v d) = Some v.
Proof.
  intros k v d. induction d as [|[k' v'] d IH]; simpl.
  - now rewrite str_eqb_refl.
  - destruct (str_eqb k k') eqn:E; simpl; rewrite E; auto.
Qed.

Lemma get_set_other :
  forall k k' v d, k <> k' -> Dict.get k (Dict.set k' v d) = Dict.get k d.
Proof.
  intros k k' v d Hne. induction d as [|[k0 v0] d IH]; simpl.
  - now rewrite (str_eqb_neq Hne).
  - destruct (str_eqb k' k0) eqn:E; simpl.
    + apply str_eqb_eq in E. subst k0. now rewrite (str_eqb_neq Hne).
    + now rewrite IH.
Qed.

Lemma bind_Ok :
  forall (A B : Type) (r : result A) (k : A -> result B) (b : B),
    bind r k = Ok b -> exists a, r = Ok a /\ k a = Ok b.
Proof. intros A B [a|e] k b H; simpl in H; [eauto | discriminate]. Qed.

(** The branch of a chat without "messages": when it returns, nothing
    was appended. *)
Ltac skipped H :=
  do 2 (apply bind_Ok in H; destruct H as (? & _ & H)); injection H as <-.

Lemma for_each_Forall :
  forall (A B : Type) (P : B -> Prop) (body : A -> result (list B)),
    (forall x out, body x = Ok out -> Forall P out) ->
    forall xs outs, for_each body xs = Ok outs -> Forall P outs.
Proof.
  intros A B P body Hbody. induction xs as [|x xs IH]; simpl; intros outs H.
  - injection H as <-. constructor.
  - apply bind_Ok in H. destruct H as (out & Hx & H).
    apply bind_Ok in H. destruct H as (rest & Hr & H).
    injection H as <-. apply Forall_app. split; eauto.
Qed.

Lemma for_each_app :
  forall (A B : Type) (body : A -> result (list B)) xs ys,
    for_each body (xs ++ ys)
    = (a <- for_each body xs ;; b <- for_each body ys ;; Ok (a ++ b)).
Proof.
  intros A B body xs ys. induction xs as [|x xs IH]; simpl.
  - destruct (for_each body ys); reflexivity.
  - destruct (body x) as [out|e]; simpl; [|reflexivity].
    rewrite IH. destruct (for_each body xs) as [a|e]; simpl; [|reflexivity].
    destruct (for_each body ys) as [b|e]; simpl; [|reflexivity].
    now rewrite app_assoc.
Qed.

Lemma str_of_Zpos :
  forall p, str_of_Z (Zpos p) = lit (NilEmpty.string_of_uint (Pos.to_uint p)).
Proof. reflexivity. Qed.

Lemma lit_uint_ascii_digits :
  forall d,
    Forall (fun c => (48 <= c <= 57)%N) (lit (NilEmpty.string_of_uint d)).
Proof.
  induction d; cbn; constructor; try lia; exact IHd.
Qed.

(** The decimal rendering of an index has no colon. *)
Lemma str_of_index_no_colon : forall i : nat, ~ In 58%N (str_of_Z (Z.of_nat i)).
Proof.
  intros i Hin.
  assert (D : Forall (fun c => (48 <= c <= 57)%N) (str_of_Z (Z.of_nat i))).
  { destruct (Z.of_nat i) as [|q|q] eqn:E; [| |lia].
    - vm_compute. repeat constructor; discriminate.
    - rewrite str_of_Zpos. apply lit_uint_ascii_digits. }
  rewrite Forall_forall in D. apply D in Hin. lia.
Qed.

(** A text is cut at its first [c] in one way only. *)
Lemma cut_at_first :
  forall (c : N) (a b x y : str),
    ~ In c a -> ~ In c b -> a ++ c :: x = b ++ c :: y -> a = b /\ x = y.
Proof.
  intro c. induction a as [|h a IH]; intros [|k b] x y Ha Hb H; simpl in *.
  - injection H as ->. auto.
  - injection H as -> _. exfalso. apply Hb. now left.
  - injection H as <- _. exfalso. apply Ha. now left.
  - injection H as -> H. apply IH in H; [|tauto|tauto].
    destruct H as [-> ->]. auto.
Qed.

(** ... hence at its last "::" followed by a text without colon. *)
Lemma cut_at_last_separator :
  forall key key' index index' : str,
    ~ In 58%N index -> ~ In 58%N index' ->
    key ++ lit "::" ++ index = key' ++ lit "::" ++ index' ->
    key = key' /\ index = index'.
Proof.
  intros key key' index index' Hi Hi' H.
  apply (f_equal (@rev N)) in H. rewrite !rev_app_distr in H.
  change (rev (lit "::")) with [58%N; 58%N] in H.
  rewrite <- !app_assoc in H. cbn [app] in H.
  apply cut_at_first in H; try (rewrite <- in_rev; assumption).
  destruct H as [Hx Hk]. injection Hk as Hk.
  apply (f_equal (@rev N)) in Hx, Hk. rewrite !rev_involutive in Hx, Hk. auto.
Qed.

(* ===================================================================== *)
(** ** Ingestion: accessibility, normalisation, flattening *)
(* ===================================================================== *)

Section IngestionFacts.

Variable repr_float : float -> str.
Variable repr_str : str -> str.
Variable environ : list (str * str).
Variable split_text : str -> list str.
Variable urlparse : str -> result (str * str).
Variable boto3_client : str -> result unit.
Variable s3_uri : str.

Local Notation "'ingest'" :=
  (s3_json_load_ingest repr_float repr_str environ split_text
     urlparse boto3_client s3_uri).

(** The metadata [message_document] builds, read back key by key. *)
Lemma message_document_inv :
  forall label score chat msg out,
    message_document environ label score chat msg = Ok out ->
    exists ckvs mkvs content,
      chat = PDict ckvs /\ msg = PDict mkvs
      /\ py_or (Dict.get_default (lit "message") PNone mkvs) (PStr []) = PStr content
      /\ out =
         [ mkDocument content
             [ (lit "chat_engine",
                Dict.get_default (lit "chat_engine") (getenv environ (lit "CHAT_ENGINE")) ckvs);
               (lit "chat_account",
                Dict.get_default (lit "chat_user") (getenv environ (lit "CHAT_USER")) ckvs);
               (lit "chat_id", Dict.get_default (lit "chat_id") PNone ckvs);
               (lit "title", Dict.get_default (lit "title") PNone ckvs);
               (lit "chat_creation_time",
                Dict.get_default (lit "chat_creation_time") PNone ckvs);
               (lit "turn_id", Dict.get_default (lit "turn_id") PNone mkvs);
               (lit "author", Dict.get_default (lit "author") PNone mkvs);
               (lit "turn_timestamp", Dict.get_default (lit "turn_timestamp") PNone mkvs);
               (lit "accessibility", PStr label);
               (lit "accessibility_confidence_score", score) ] ].
Proof.
  intros label score chat msg out H. unfold message_document in H.
  destruct msg as [| | | | |?|mkvs]; try discriminate H.
  destruct chat as [| | | | |?|ckvs]; try discriminate H.
  simpl in H.
  destruct (py_or (Dict.get_default (lit "message") PNone mkvs) (PStr []))
    as [| | | |content| |] eqn:E; try discriminate H.
  simpl in H. injection H as <-.
  exists ckvs, mkvs, content. repeat split; auto.
Qed.





(** What a successful call hands to the vector store. *)
Lemma ingest_Upserts_inv :
  forall lambda_response data chunks,
    ingest lambda_response data = Upserts chunks ->
    exists label score chats docs,
      accessibility_decision repr_float repr_str lambda_response = Ok (label, score)
      /\ normalize data = Some chats
      /\ flatten repr_float repr_str environ label score chats = Ok docs
      /\ chunks = flat_map (chunk_document repr_float repr_str split_text) docs.
Proof.
  intros lambda_response data chunks H.
  unfold s3_json_load_ingest in H.
  destruct (truthy lambda_response); simpl in H; [|discriminate].
  destruct (accessibility_decision repr_float repr_str lambda_response) as [[label score]|e];
    [|discriminate].
  destruct (locate urlparse boto3_client s3_uri) as [loc|e]; [|discriminate].
  unfold process in H.
  destruct (normalize data) as [chats|]; [|discriminate].
  destruct (flatten repr_float repr_str environ label score chats) as [docs|e] eqn:F;
    simpl in H; [|discriminate].
  destruct docs as [|d docs]; [discriminate|].
  injection H as <-. exists label, score, chats, (d :: docs). auto.
Qed.




Lemma mem_false_get : forall k d, Dict.mem k d = false -> Dict.get k d = None.
Proof. intros k d. unfold Dict.mem. destruct (Dict.get k d); congruence. Qed.

Lemma normalize_None_process :
  forall label score data,
    normalize data = None ->
    process repr_float repr_str environ split_text label score data = Ok ReturnsEmpty.
Proof. intros label score data H. unfold process. now rewrite H. Qed.

(** C4.  The normaliser wraps a mapping with a "messages" key as a
    one-element sequence; otherwise takes the value under "data" of a
    mapping that has that key; otherwise takes a sequence as it is; and
    on any other value it recognises nothing, the guarded block ends
    without an exception and the call, which came to read the JSON
    value (the decision was computed, the URI parsed and the client
    created), returns the empty result. *)
Theorem C4_normalizer_shapes :
  (forall kvs,
      Dict.mem (lit "messages") kvs = true ->
      normalize (PDict kvs) = Some (PList [PDict kvs]))
  /\ (forall kvs chats,
         Dict.mem (lit "messages") kvs = false ->
         getitem (PDict kvs) (lit "data") = Ok chats ->
         normalize (PDict kvs) = Some chats)
  /\ (forall xs, normalize (PList xs) = Some (PList xs))
  /\ (forall data,
         unrecognized data ->
         normalize data = None
         /\ (forall label score,
                process repr_float repr_str environ split_text label score data
                = Ok ReturnsEmpty)
         /\ (forall lambda_response label score location,
                accessibility_decision repr_float repr_str lambda_response = Ok (label, score) ->
                locate urlparse boto3_client s3_uri = Ok location ->
                ingest lambda_response data = ReturnsEmpty)).
Proof.
  repeat split.
  - intros kvs H. simpl. now rewrite H.
  - intros kvs chats Hm Hd. simpl. rewrite Hm. simpl in Hd.
    destruct (Dict.get (lit "data") kvs); [congruence | discriminate].
  - assert (N : normalize data = None).
    { destruct data as [| | | | |xs|kvs]; simpl in *; try reflexivity.
      - contradiction.
      - destruct H as [Hm Hd]. rewrite Hm. now rewrite (mem_false_get _ _ Hd). }
    exact N.
  - intros label score. apply normalize_None_process.
    destruct data as [| | | | |xs|kvs]; simpl in *; try reflexivity.
    + contradiction.
    + destruct H as [Hm Hd]. rewrite Hm. now rewrite (mem_false_get _ _ Hd).
  - intros lambda_response label score location Hd Hl. unfold s3_json_load_ingest.
    destruct (truthy lambda_response); simpl; [|reflexivity].
    rewrite Hd, Hl. rewrite normalize_None_process; [reflexivity|].
    destruct data as [| | | | |xs|kvs]; simpl in *; try reflexivity.
    + contradiction.
    + destruct H as [Hm Hk]. rewrite Hm. now rewrite (mem_false_get _ _ Hk).
Qed.

(* --------------------------------------------------------------------- *)
(** *** Chats without turns *)





Lemma for_each_length :
  forall (A B : Type) (body : A -> result (list B)) (count : A -> nat),
    (forall x out, body x = Ok out -> List.length out = count x) ->
    forall xs outs,
      for_each body xs = Ok outs ->
      List.length outs = list_sum (map count xs).
Proof.
  intros A B body count Hbody. induction xs as [|x xs IH]; simpl; intros outs H.
  - now injection H as <-.
  - apply bind_Ok in H. destruct H as (out & Hx & H).
    apply bind_Ok in H. destruct H as (rest & Hr & H).
    injection H as <-. rewrite length_app. erewrite Hbody, IH; eauto.
Qed.

Lemma message_document_one :
  forall label score chat msg out,
    message_document environ label score chat msg = Ok out ->
    List.length out = 1.
Proof.
  intros label score chat msg out H. apply message_document_inv in H.
  destruct H as (? & ? & ? & _ & _ & _ & ->). reflexivity.
Qed.

Lemma chat_documents_length :
  forall label score chat out,
    chat_documents repr_float repr_str environ label score chat = Ok out ->
    List.length out = turn_count chat.
Proof.
  intros label score chat out H. unfold chat_documents in H.
  apply bind_Ok in H. destruct H as (has & Hin & H).
  destruct has; simpl in H.
  - apply bind_Ok in H. destruct H as (messages & Hg & H).
    apply bind_Ok in H. destruct H as (msgs & Hi & H).
    destruct chat as [| | | | |?|kvs]; try discriminate Hg. simpl in Hg |- *.
    destruct (Dict.get (lit "messages") kvs) as [m|]; [|discriminate].
    injection Hg as ->. rewrite Hi.
    rewrite (for_each_length _ (fun _ => 1)
               (fun m o => @message_document_one label score (PDict kvs) m o) _ H).
    clear. induction msgs; simpl; auto.
  - apply bind_Ok in H. destruct H as (? & Hg & H).
    apply bind_Ok in H. destruct H as (? & _ & H). injection H as <-.
    destruct chat as [| | | | |?|kvs]; try discriminate Hg.
    simpl in Hin |- *. injection Hin as Hin.
    unfold Dict.mem in Hin.
    destruct (Dict.get (lit "messages") kvs); [discriminate | reflexivity].
Qed.


(* --------------------------------------------------------------------- *)
(** *** The ownership key *)

Lemma chunk_document_metadata :
  forall k d,
    k <> lit "chunk_index" -> k <> lit "chunk_id" ->
    Forall (fun c => Dict.get k (metadata c) = Dict.get k (metadata d))
      (chunk_document repr_float repr_str split_text d).
Proof.
  intros k d H1 H2. unfold chunk_document. apply Forall_forall.
  intros c Hc. apply in_map_iff in Hc. destruct Hc as ([i chunk] & <- & _).
  simpl. now rewrite !get_set_other.
Qed.

Lemma flatten_ownership :
  forall label score chats docs,
    flatten repr_float repr_str environ label score chats = Ok docs ->
    Forall (fun d =>
              Dict.mem (lit "chat_account") (metadata d) = true
              /\ Dict.get (lit "chat_user") (metadata d) = None) docs.
Proof.
  intros label score chats docs H. unfold flatten in H.
  apply bind_Ok in H. destruct H as (cs & _ & H). revert H.
  apply for_each_Forall. intros chat out H. unfold chat_documents in H.
  apply bind_Ok in H. destruct H as (has & _ & H). destruct has; simpl in H.
  - apply bind_Ok in H. destruct H as (messages & _ & H).
    apply bind_Ok in H. destruct H as (msgs & _ & H). revert H.
    apply for_each_Forall. intros msg out' H. apply message_document_inv in H.
    destruct H as (? & ? & ? & _ & _ & _ & ->).
    constructor; [|constructor]. split; reflexivity.
  - skipped H. constructor.
Qed.

(** The vector store's evaluation of a condition, and the one fact
    about it that matters here: an equality condition does not hold on
    a field the record does not have. *)
Variable holds : pyval -> option pyval -> bool.
Hypothesis equality_needs_the_field :
  forall value, holds (PDict [(lit "$eq", value)]) None = false.

Lemma filter_needs_chat_user :
  forall u meta,
    u <> [] ->
    Dict.get (lit "chat_user") meta = None ->
    filter_matches holds (pinecone_filter (Some u)) meta = false.
Proof.
  intros u meta Hu H. destruct u as [|c u]; [contradiction|].
  unfold filter_matches, pinecone_filter. simpl. rewrite H.
  now rewrite equality_needs_the_field.
Qed.

(** C7.  Ingestion stores the owner of a chat, which it reads from the
    chat's "chat_user" (or the configured default), under the metadata
    key "chat_account"; no metadata it produces has a key "chat_user";
    the retriever's filter for a non-empty user constrains exactly the
    key "chat_user"; hence, an equality condition failing on a field
    that is absent, no chunk handed to the vector store by ingestion
    satisfies the filter of any non-empty user. *)
Theorem C7_ownership_key_mismatch :
  (forall label score ckvs msg d,
      message_document environ label score (PDict ckvs) msg = Ok [d] ->
      Dict.get (lit "chat_account") (metadata d)
      = Some (Dict.get_default (lit "chat_user") (getenv environ (lit "CHAT_USER")) ckvs))
  /\ (forall u, u <> [] -> Dict.keys (pinecone_filter (Some u)) = [lit "chat_user"])
  /\ (forall lambda_response data chunks,
         ingest lambda_response data = Upserts chunks ->
         Forall (fun c =>
                   Dict.mem (lit "chat_account") (metadata c) = true
                   /\ Dict.get (lit "chat_user") (metadata c) = None
                   /\ forall u, u <> [] ->
                        filter_matches holds (pinecone_filter (Some u)) (metadata c)
                        = false)
           chunks).
Proof.
  split; [|split].
  - intros label score ckvs msg d H. apply message_document_inv in H.
    destruct H as (ckvs' & ? & ? & Hc & _ & _ & H).
    injection Hc as <-. injection H as ->. reflexivity.
  - intros [|c u] Hu; [contradiction | reflexivity].
  - intros lambda_response data chunks H. apply ingest_Upserts_inv in H.
    destruct H as (label & score & chats & docs & _ & _ & Hf & ->).
    apply Forall_flat_map. apply flatten_ownership in Hf. revert Hf.
    apply Forall_impl. intros d [Ha Hu].
    pose proof (chunk_document_metadata (k:=lit "chat_account") d) as Ka.
    pose proof (chunk_document_metadata (k:=lit "chat_user") d) as Ku.
    specialize (Ka ltac:(vm_compute; discriminate) ltac:(vm_compute; discriminate)).
    specialize (Ku ltac:(vm_compute; discriminate) ltac:(vm_compute; discriminate)).
    rewrite Forall_forall in Ka, Ku. apply Forall_forall. intros c Hc.
    assert (G : Dict.get (lit "chat_user") (metadata c) = None)
      by (rewrite (Ku c Hc); exact Hu).
    repeat split.
    + unfold Dict.mem in *. now rewrite (Ka c Hc).
    + exact G.
    + intros u Hne. now apply filter_needs_chat_user.
Qed.

(* --------------------------------------------------------------------- *)
(** *** Chunk identifiers *)

Lemma lit_inj : forall a b : string, lit a = lit b -> a = b.
Proof.
  intros a b H. unfold lit in H.
  rewrite <- (string_of_list_ascii_of_string a), <- (string_of_list_ascii_of_string b).
  f_equal. revert H.
  generalize (list_ascii_of_string a) (list_ascii_of_string b).
  induction l as [|x l IH]; intros [|y l'] H; simpl in H; try discriminate; auto.
  injection H as Hx Hl. f_equal; [|now apply IH].
  rewrite <- (ascii_N_embedding x), <- (ascii_N_embedding y). now rewrite Hx.
Qed.

Lemma str_of_Z_inj : forall a b : Z, str_of_Z a = str_of_Z b -> a = b.
Proof.
  intros a b H. apply lit_inj in H.
  assert (E : Z.to_int a = Z.to_int b).
  { pose proof (NilEmpty.isi (Z.to_int a)) as Ha.
    pose proof (NilEmpty.isi (Z.to_int b)) as Hb.
    rewrite H in Ha. rewrite Ha in Hb. now injection Hb. }
  rewrite <- (DecimalZ.of_to a), <- (DecimalZ.of_to b). now rewrite E.
Qed.

Lemma enumerate_fst :
  forall (A : Type) (xs : list A),
    map fst (enumerate xs) = seq 0 (List.length xs).
Proof.
  intros A xs. unfold enumerate. generalize 0.
  induction xs as [|x xs IH]; intro n; simpl; [reflexivity|]. now rewrite IH.
Qed.

Lemma get_default_set_other :
  forall k k' v default d,
    k <> k' ->
    Dict.get_default k default (Dict.set k' v d) = Dict.get_default k default d.
Proof. intros. unfold Dict.get_default. now rewrite get_set_other. Qed.

Lemma chunk_ids_of_document :
  forall d,
    map chunk_id_of (chunk_document repr_float repr_str split_text d)
    = map (fun i => Some (expected_chunk_id repr_float repr_str d i))
        (seq 0 (List.length (split_text (page_content d)))).
Proof.
  intro d. unfold chunk_document. rewrite <- enumerate_fst, !map_map.
  apply map_ext. intros [i chunk]. unfold chunk_id_of, expected_chunk_id. simpl.
  rewrite get_set_same.
  now rewrite !get_default_set_other by (vm_compute; discriminate).
Qed.

Lemma expected_chunk_id_inj :
  forall d i j,
    expected_chunk_id repr_float repr_str d i
    = expected_chunk_id repr_float repr_str d j -> i = j.
Proof.
  intros d i j H. unfold expected_chunk_id in H.
  remember (lit "::") as sep. injection H as H.
  do 4 apply app_inv_head in H. apply str_of_Z_inj in H. lia.
Qed.

Lemma NoDup_map_injective :
  forall (A B : Type) (f : A -> B) (l : list A),
    (forall x y, f x = f y -> x = y) -> NoDup l -> NoDup (map f l).
Proof.
  intros A B f l Hf H. induction H as [|x l Hx H IH]; simpl; constructor; auto.
  intro Hin. apply in_map_iff in Hin. destruct Hin as (y & Hy & Hl).
  apply Hf in Hy. now subst y.
Qed.

Lemma chunk_ids_NoDup :
  forall d, NoDup (map chunk_id_of (chunk_document repr_float repr_str split_text d)).
Proof.
  intro d. rewrite chunk_ids_of_document.
  apply NoDup_map_injective; [|apply seq_NoDup].
  intros i j H. apply (@expected_chunk_id_inj d). congruence.
Qed.

Lemma for_each_Forall2 :
  forall (A B B' : Type) (R : B -> B' -> Prop)
         (body : A -> result (list B)) (body' : A -> result (list B')),
    (forall x o o', body x = Ok o -> body' x = Ok o' -> Forall2 R o o') ->
    forall xs os os',
      for_each body xs = Ok os -> for_each body' xs = Ok os' -> Forall2 R os os'.
Proof.
  intros A B B' R body body' Hb. induction xs as [|x xs IH]; simpl; intros os os' H H'.
  - injection H as <-. injection H' as <-. constructor.
  - apply bind_Ok in H. destruct H as (o & Hx & H).
    apply bind_Ok in H. destruct H as (r & Hr & H). injection H as <-.
    apply bind_Ok in H'. destruct H' as (o' & Hx' & H').
    apply bind_Ok in H'. destruct H' as (r' & Hr' & H'). injection H' as <-.
    apply Forall2_app; eauto.
Qed.

(** The text and the identifiers of the content units depend on the
    JSON input alone, not on the label, the score or the environment. *)
Lemma flatten_same_turns :
  forall environ' label score label' score' chats docs docs',
    flatten repr_float repr_str environ label score chats = Ok docs ->
    flatten repr_float repr_str environ' label' score' chats = Ok docs' ->
    Forall2 same_turn docs docs'.
Proof.
  intros environ' label score label' score' chats docs docs' H H'.
  unfold flatten in H, H'.
  destruct (py_iter chats) as [cs|]; [|discriminate]. simpl in H, H'.
  revert cs docs docs' H H'. apply for_each_Forall2.
  intros chat o o' H H'. unfold chat_documents in H, H'.
  destruct (py_in (lit "messages") chat) as [has|]; [|discriminate].
  simpl in H, H'. destruct has; simpl in H, H'.
  - destruct (getitem chat (lit "messages")) as [m|]; [|discriminate].
    simpl in H, H'. destruct (py_iter m) as [msgs|]; [|discriminate].
    simpl in H, H'. revert msgs o o' H H'. apply for_each_Forall2.
    intros msg o o' H H'.
    apply message_document_inv in H.
    destruct H as (ckvs & mkvs & content & -> & -> & Hc & ->).
    unfold message_document in H'. simpl in H'. rewrite Hc in H'. simpl in H'.
    injection H' as <-. constructor; [|constructor]. repeat split.
  - skipped H. skipped H'. constructor.
Qed.

Lemma same_turn_chunk_ids :
  forall d d',
    same_turn d d' ->
    map chunk_id_of (chunk_document repr_float repr_str split_text d)
    = map chunk_id_of (chunk_document repr_float repr_str split_text d').
Proof.
  intros d d' (Hp & Hc & Ht). rewrite !chunk_ids_of_document, Hp.
  apply map_ext. intro i. unfold expected_chunk_id, Dict.get_default.
  now rewrite Hc, Ht.
Qed.

Lemma same_turns_chunk_ids :
  forall docs docs',
    Forall2 same_turn docs docs' ->
    map chunk_id_of (flat_map (chunk_document repr_float repr_str split_text) docs)
    = map chunk_id_of (flat_map (chunk_document repr_float repr_str split_text) docs').
Proof.
  intros docs docs' S. induction S as [|x y l l' Hxy S IH]; [reflexivity|].
  simpl. rewrite !map_app. f_equal; [now apply same_turn_chunk_ids | exact IH].
Qed.

Lemma expected_chunk_id_key :
  forall d i,
    expected_chunk_id repr_float repr_str d i
    = PStr (turn_key repr_float repr_str d ++ lit "::" ++ str_of_Z (Z.of_nat i)).
Proof.
  intros d i. unfold expected_chunk_id, turn_key. now rewrite <- !app_assoc.
Qed.

Lemma chunk_id_key :
  forall d c,
    In c (map chunk_id_of (chunk_document repr_float repr_str split_text d)) ->
    exists i,
      c = Some (PStr (turn_key repr_float repr_str d ++ lit "::"
                      ++ str_of_Z (Z.of_nat i))).
Proof.
  intros d c H. rewrite chunk_ids_of_document in H. apply in_map_iff in H.
  destruct H as (i & <- & _). exists i. now rewrite expected_chunk_id_key.
Qed.

(** Content units with different keys have no identifier in common. *)
Lemma chunk_ids_apart :
  forall d d' c,
    In c (map chunk_id_of (chunk_document repr_float repr_str split_text d)) ->
    In c (map chunk_id_of (chunk_document repr_float repr_str split_text d')) ->
    turn_key repr_float repr_str d = turn_key repr_float repr_str d'.
Proof.
  intros d d' c H H'. apply chunk_id_key in H, H'.
  destruct H as (i & ->). destruct H' as (j & E). injection E as E.
  apply cut_at_last_separator in E; try apply str_of_index_no_colon.
  now destruct E.
Qed.

Lemma batch_chunk_ids_NoDup :
  forall docs,
    NoDup (map (turn_key repr_float repr_str) docs) ->
    NoDup (map chunk_id_of
             (flat_map (chunk_document repr_float repr_str split_text) docs)).
Proof.
  induction docs as [|d docs IH]; intro H; [constructor|].
  inversion H as [|? ? Hd Hr]; subst. cbn [flat_map]. rewrite map_app.
  apply NoDup_app; [apply chunk_ids_NoDup | now apply IH |].
  intros c Hc Hin. apply Hd.
  rewrite flat_map_concat_map, concat_map, map_map in Hin.
  apply in_concat in Hin. destruct Hin as (ids & Hids & Hin).
  apply in_map_iff in Hids. destruct Hids as (d' & <- & Hd').
  rewrite (@chunk_ids_apart d d' c Hc Hin). now apply in_map.
Qed.

(** C3 (as amended).  The chunks of a content unit get the identifiers
    [chat_id :: turn_id :: chunk_index] for the indices 0, 1, ... in
    order; the identifiers of the chunks of one content unit are
    pairwise distinct, and the identifiers of a whole batch are pairwise
    distinct whenever the rendered [chat_id::turn_id] of its content
    units are; and the sequence of identifiers of a batch depends on the
    JSON input alone: two successful ingestions of the same input,
    whatever the classification, the environment and the location,
    hand the vector store the same sequence of identifiers. *)
Theorem C3_chunk_ids :
  (forall d,
      map chunk_id_of (chunk_document repr_float repr_str split_text d)
      = map (fun i => Some (expected_chunk_id repr_float repr_str d i))
          (seq 0 (List.length (split_text (page_content d)))))
  /\ (forall d,
         NoDup (map chunk_id_of (chunk_document repr_float repr_str split_text d)))
  /\ (forall docs,
         NoDup (map (turn_key repr_float repr_str) docs) ->
         NoDup (map chunk_id_of
                  (flat_map (chunk_document repr_float repr_str split_text) docs)))
  /\ (forall environ' urlparse' boto3_client' s3_uri'
             lambda_response lambda_response' data chunks chunks',
         ingest lambda_response data = Upserts chunks ->
         s3_json_load_ingest repr_float repr_str environ' split_text
           urlparse' boto3_client' s3_uri' lambda_response' data = Upserts chunks' ->
         map chunk_id_of chunks = map chunk_id_of chunks').
Proof.
  split; [apply chunk_ids_of_document | split; [apply chunk_ids_NoDup|]].
  split; [apply batch_chunk_ids_NoDup|].
  intros environ' urlparse' boto3_client' s3_uri'
         lambda_response lambda_response' data chunks chunks' H H'.
  apply ingest_Upserts_inv in H.
  destruct H as (label & score & chats & docs & _ & Hn & Hf & ->).
  unfold s3_json_load_ingest in H'.
  destruct (truthy lambda_response'); simpl in H'; [|discriminate].
  destruct (accessibility_decision repr_float repr_str lambda_response') as [[label' score']|];
    [|discriminate].
  destruct (locate urlparse' boto3_client' s3_uri') as [location|]; [|discriminate].
  unfold process in H'. rewrite Hn in H'.
  destruct (flatten repr_float repr_str environ' label' score' chats) as [docs'|] eqn:Hf';
    simpl in H'; [|discriminate].
  assert (S : Forall2 same_turn docs docs') by (eapply flatten_same_turns; eauto).
  destruct docs' as [|d' docs']; [discriminate|]. injection H' as <-.
  exact (same_turns_chunk_ids S).
Qed.

End IngestionFacts.

(* ===================================================================== *)
(** ** The text splitter: sizes of the segments *)
(* ===================================================================== *)

Section SplitterFacts.

Import Splitter.

Variable chunk_size : nat.
Variable chunk_overlap : nat.

Local Notation "'small' p" := (List.length p <= chunk_size) (at level 10).

Lemma total_app : forall l l', total (l ++ l') = total l + total l'.
Proof. intros. unfold total. now rewrite concat_app, length_app. Qed.

Lemma total_one : forall p, total [p] = List.length p.
Proof. intro p. unfold total. simpl. now rewrite app_nil_r. Qed.







Lemma emit_small :
  forall current, total current <= chunk_size -> Forall (fun c => small c) (emit current).
Proof.
  intros current H. unfold emit. unfold total in H.
  destruct (List.concat current); constructor; auto.
Qed.

Lemma emit_one :
  forall text : str, emit [text] = match text with [] => [] | _ => [text] end.
Proof.
  intro text. unfold emit. cbn [List.concat]. rewrite app_nil_r.
  now destruct text.
Qed.

Lemma carry_over_fits :
  forall next current,
    next <= chunk_size ->
    total (carry_over chunk_size chunk_overlap next current) + next <= chunk_size.
Proof.
  intros next. induction current as [|p current IH]; intro H; simpl.
  - unfold total. simpl. lia.
  - destruct (chunk_overlap <? total (p :: current)) eqn:O; simpl.
    + now apply IH.
    + destruct (chunk_size <? total (p :: current) + next) eqn:F.
      * now apply IH.
      * apply Nat.ltb_ge in F. exact F.
Qed.

(** Merging small pieces gives small segments. *)
Lemma merge_small :
  forall pieces current,
    Forall (fun p => small p) pieces ->
    total current <= chunk_size ->
    Forall (fun c => small c) (merge chunk_size chunk_overlap current pieces).
Proof.
  induction pieces as [|d rest IH]; intros current Hp Hc; simpl.
  - now apply emit_small.
  - inversion Hp as [|? ? Hd Hrest]; subst.
    destruct (chunk_size <? total current + List.length d) eqn:F.
    + destruct current as [|q current].
      * apply IH; [exact Hrest | now rewrite total_one].
      * apply Forall_app. split; [now apply emit_small|].
        apply IH; [exact Hrest|]. rewrite total_app, total_one.
        now apply carry_over_fits.
    + apply Nat.ltb_ge in F. apply IH; [exact Hrest|].
      now rewrite total_app, total_one.
Qed.

Lemma flat_map_incl_filter :
  forall (A B : Type) (f : A -> list B) (keep : A -> bool) (x : A) (l : list A) (b : B),
    In b (flat_map f (filter keep l)) ->
    In b (flat_map f (filter keep (x :: l))).
Proof.
  intros A B f keep x l b H. simpl. destruct (keep x); simpl; [|exact H].
  apply in_or_app. now right.
Qed.

Lemma walk_bound :
  forall (resplit : str -> list str) (exceptions : str -> list str),
    (forall s, Forall (fun c => small c \/ In c (exceptions s)) (resplit s)) ->
    forall pieces good,
      Forall (fun p => small p) good ->
      Forall
        (fun c =>
           small c
           \/ In c (flat_map exceptions
                      (filter (fun s => negb (List.length s <=? chunk_size)) pieces)))
        (walk chunk_size chunk_overlap resplit good pieces).
Proof.
  intros resplit exceptions Hre.
  assert (M : forall good (Q : str -> Prop),
             Forall (fun p => small p) good ->
             Forall (fun c => small c \/ Q c) (merge chunk_size chunk_overlap [] good)).
  { intros good Q Hg. eapply Forall_impl; [|apply merge_small; auto].
    - intros; now left.
    - unfold total. simpl. lia. }
  induction pieces as [|s rest IH]; intros good Hg; simpl.
  - now apply M.
  - destruct (List.length s <=? chunk_size) eqn:E; simpl.
    + apply Nat.leb_le in E. apply IH. apply Forall_app. split; auto.
    + apply Forall_app. split; [now apply M|]. apply Forall_app. split.
      * eapply Forall_impl; [|apply Hre]. intros c [H|H]; [now left|right].
        apply in_or_app. now left.
      * eapply Forall_impl; [|apply IH; constructor].
        intros c [H|H]; [now left|right]. apply in_or_app. now right.
Qed.

(** Every segment is small, or is an atomic token. *)
Lemma split_with_bound :
  forall seps text,
    Forall (fun c => small c \/ In c (atomic_tokens chunk_size seps text))
      (split_with chunk_size chunk_overlap seps text).
Proof.
  induction seps as [|sep finer IH]; intro text;
    cbn [split_with atomic_tokens].
  - rewrite emit_one. destruct text as [|c text]; constructor; auto.
    destruct (chunk_size <? List.length (c :: text)) eqn:E.
    + right. now left.
    + apply Nat.ltb_ge in E. now left.
  - apply walk_bound; [exact IH | constructor].
Qed.

Lemma flat_map_nil :
  forall (A B : Type) (f : A -> list B) (l : list A),
    (forall x, f x = []) -> flat_map f l = [].
Proof. intros A B f l H. induction l; simpl; [|rewrite H]; auto. Qed.

(** With the character boundary as last separator, nothing is atomic. *)
Lemma no_atomic_tokens :
  forall coarser text,
    1 <= chunk_size ->
    atomic_tokens chunk_size (coarser ++ [[]]) text = [].
Proof.
  intros coarser text H. revert text.
  induction coarser as [|sep coarser IH]; intro text; simpl.
  - replace (filter _ _) with (@nil str); [reflexivity|].
    unfold pieces_of. induction text as [|c text IHt]; simpl; [reflexivity|].
    destruct (chunk_size) as [|n] eqn:E; [lia|]. simpl. exact IHt.
  - now apply flat_map_nil.
Qed.

Lemma split_with_character_boundary :
  forall coarser text,
    1 <= chunk_size ->
    Forall (fun c => small c)
      (split_with chunk_size chunk_overlap (coarser ++ [[]]) text).
Proof.
  intros coarser text H.
  eapply Forall_impl; [|apply split_with_bound].
  intros c [Hc|Hc]; [exact Hc|]. rewrite no_atomic_tokens in Hc by exact H.
  contradiction.
Qed.

End SplitterFacts.

(** C6.  Every segment the chunker produces is at most [chunk_size]
    long unless it is an atomic token, a piece that still exceeds
    [chunk_size] when every separator has been tried; and with the
    separators of the pipeline, which end in the empty string, every
    segment of every text is at most 150 characters long. *)
Theorem C6_segments_within_chunk_size :
  (forall chunk_size chunk_overlap seps text,
      Forall
        (fun c =>
           List.length c <= chunk_size
           \/ In c (Splitter.atomic_tokens chunk_size seps text))
        (Splitter.split_with chunk_size chunk_overlap seps text))
  /\ (forall text,
         Forall (fun c => List.length c <= 150) (Splitter.split_text text)).
Proof.
  split; [apply split_with_bound|].
  intro text. unfold Splitter.split_text, Splitter.separators.
  apply (split_with_character_boundary 30 [[10; 10]; [10]; [32]]%N). lia.
Qed.

(* ===================================================================== *)
(** ** The text splitter: empty and short texts *)
(* ===================================================================== *)

Section ShortTexts.

Import Splitter.

Variable chunk_size : nat.
Variable chunk_overlap : nat.




End ShortTexts.




(* ===================================================================== *)
(** ** The stable sort on keys *)
(* ===================================================================== *)

Section SortKeyed.

Variable A : Type.

Local Notation "'by_key'" := (fun a b : Z * A => (fst a <= fst b)%Z).

Lemma insert_keyed_perm :
  forall (x : Z * A) l, Permutation (insert_keyed x l) (x :: l).
Proof.
  intros x. induction l as [|y l IH]; simpl; [reflexivity|].
  destruct (fst x <=? fst y)%Z; [reflexivity|].
  rewrite IH. apply perm_swap.
Qed.

Lemma sort_keyed_perm : forall l : list (Z * A), Permutation (sort_keyed l) l.
Proof.
  induction l as [|x l IH]; simpl; [reflexivity|].
  rewrite insert_keyed_perm. now constructor.
Qed.

Lemma insert_keyed_sorted :
  forall (x : Z * A) l, Sorted by_key l -> Sorted by_key (insert_keyed x l).
Proof.
  intros x. induction l as [|y l IH]; intro H; simpl.
  - repeat constructor.
  - destruct (fst x <=? fst y)%Z eqn:E.
    + apply Z.leb_le in E. constructor; [exact H | now constructor].
    + apply Z.leb_gt in E. inversion H as [|? ? Hs Hh]; subst.
      constructor; [now apply IH|].
      destruct l as [|z l]; simpl.
      * constructor. simpl. lia.
      * destruct (fst x <=? fst z)%Z; constructor.
        -- simpl. lia.
        -- now inversion Hh.
Qed.

Lemma sort_keyed_sorted : forall l : list (Z * A), Sorted by_key (sort_keyed l).
Proof.
  induction l as [|x l IH]; simpl; [constructor | now apply insert_keyed_sorted].
Qed.

Lemma sorted_keys :
  forall l : list (Z * A), Sorted by_key l -> Sorted Z.le (map fst l).
Proof.
  induction 1 as [|x l Hs IH Hh]; simpl; constructor; auto.
  destruct Hh; simpl; constructor; auto.
Qed.

End SortKeyed.

(* ===================================================================== *)
(** ** Citation extraction *)
(* ===================================================================== *)

Lemma for_each_pure :
  forall (A B : Type) (body : A -> result (list B)) (f : A -> list B),
    (forall x, body x = Ok (f x)) ->
    forall xs, for_each body xs = Ok (flat_map f xs).
Proof.
  intros A B body f H. induction xs as [|x xs IH]; simpl; [reflexivity|].
  now rewrite H, IH.
Qed.

Lemma bracketed_inj : forall a b, bracketed a = bracketed b -> a = b.
Proof.
  intros a b H. unfold bracketed in H.
  apply app_inv_head in H. now apply app_inv_tail in H.
Qed.

Section CitationFacts.

Variable decimal : N -> option Z.
Variable set_order : list str -> list str.
Variable int_max_str_digits : nat.

(** Iterating a set visits each of its elements once. *)
Hypothesis set_order_permutes : forall l, Permutation (set_order l) l.

(** The ASCII brackets are not decimal digits. *)
Hypothesis open_bracket_not_digit : decimal 91 = None.
Hypothesis close_bracket_not_digit : decimal 93 = None.

Local Notation "'digit'" := (is_digit decimal).
Local Notation "'int'" := (py_int decimal int_max_str_digits).
Local Notation "'key'" := (sort_key decimal int_max_str_digits).
Local Notation "'extract'" :=
  (_extract_references decimal set_order int_max_str_digits).

Local Notation "'digits'" := (digit_run decimal).

Lemma digits_then_close_digits :
  forall s ds n,
    digits_then_close decimal s = Some (ds, n) -> forallb digit ds = true.
Proof.
  induction s as [|c s IH]; intros ds n H; simpl in H; [discriminate|].
  destruct (digit c) eqn:D.
  - destruct (digits_then_close decimal s) as [[ds' n']|] eqn:E.
    + injection H as <- <-. simpl. rewrite D. eauto.
    + destruct (is_close c); [|discriminate]. now injection H as <- <-.
  - destruct (is_close c); [|discriminate]. now injection H as <- <-.
Qed.

Lemma match_marker_digits :
  forall s group n, match_marker decimal s = Some (group, n) -> digits group.
Proof.
  intros s group n H. unfold match_marker in H.
  destruct s as [|o [|d s]]; try discriminate.
  destruct (is_open o); [|discriminate]. simpl in H.
  destruct (digit d) eqn:D; [|discriminate].
  destruct (digits_then_close decimal s) as [[ds m]|] eqn:E; [|discriminate].
  injection H as <- <-. split; [discriminate|]. simpl. rewrite D.
  eapply digits_then_close_digits; eauto.
Qed.

(** Every captured group is a non-empty run of digits. *)
Lemma findall_digits :
  forall s, Forall digits (findall decimal s).
Proof.
  intro s. unfold findall. generalize 0.
  induction s as [|c s IH]; intro skip; cbn [findall_from]; [constructor|].
  destruct skip; [|apply IH].
  destruct (match_marker decimal (c :: s)) as [[group n]|] eqn:M; [|apply IH].
  constructor; [|apply IH]. eapply match_marker_digits; eauto.
Qed.

Lemma int_raises_ValueError : forall s e, int s = Raise e -> e = ValueError.
Proof.
  intros s e H. unfold py_int in H.
  destruct (_ && _); [congruence|].
  destruct s; [congruence|]. destruct (digits_value decimal 0 _); congruence.
Qed.

(** The loop body never raises. *)
Lemma resolve_resolved :
  forall docs index_str,
    resolve decimal int_max_str_digits docs index_str
    = Ok (resolved decimal int_max_str_digits docs index_str).
Proof.
  intros docs index_str. unfold resolve, resolved.
  destruct (int index_str) as [n|e] eqn:E; simpl.
  - destruct ((0 <=? n - 1)%Z && (n - 1 <? Z.of_nat (List.length docs))%Z) eqn:C.
    + apply andb_true_iff in C. destruct C as [C1 C2].
      apply Z.leb_le in C1. apply Z.ltb_lt in C2.
      replace ((1 <=? n)%Z && (n <=? Z.of_nat (List.length docs))%Z) with true
        by (symmetry; apply andb_true_iff; split; apply Z.leb_le; lia).
      unfold list_getitem.
      replace (n - 1 <? 0)%Z with false by (symmetry; apply Z.ltb_ge; lia).
      replace (n - 1 <? 0)%Z with false by (symmetry; apply Z.ltb_ge; lia).
      destruct (nth_error docs (Z.to_nat (n - 1))) eqn:T; [reflexivity|].
      apply nth_error_None in T. lia.
    + replace ((1 <=? n)%Z && (n <=? Z.of_nat (List.length docs))%Z) with false;
        [reflexivity|].
      symmetry. apply andb_false_iff. apply andb_false_iff in C.
      destruct C as [C|C]; [left; apply Z.leb_gt; apply Z.leb_gt in C
                           | right; apply Z.leb_gt; apply Z.ltb_ge in C]; lia.
  - now rewrite (int_raises_ValueError _ E).
Qed.

Lemma resolved_cases :
  forall docs index_str,
    (resolved decimal int_max_str_digits docs index_str = []
     /\ ~ exists n, int index_str = Ok n /\ (1 <= n <= Z.of_nat (List.length docs))%Z)
    \/ (exists n doc,
          int index_str = Ok n
          /\ (1 <= n <= Z.of_nat (List.length docs))%Z
          /\ nth_error docs (Z.to_nat (n - 1)) = Some doc
          /\ resolved decimal int_max_str_digits docs index_str
             = [ref_data index_str doc]).
Proof.
  intros docs index_str. unfold resolved.
  destruct (int index_str) as [n|e] eqn:E.
  - destruct ((1 <=? n)%Z && (n <=? Z.of_nat (List.length docs))%Z) eqn:C.
    + apply andb_true_iff in C. destruct C as [C1 C2].
      apply Z.leb_le in C1. apply Z.leb_le in C2.
      destruct (nth_error docs (Z.to_nat (n - 1))) as [doc|] eqn:T.
      * right. exists n, doc. auto.
      * apply nth_error_None in T. lia.
    + left. split; [reflexivity|]. intros (m & Hm & Hr). injection Hm as <-.
      apply andb_false_iff in C. destruct C as [C|C]; apply Z.leb_gt in C; lia.
  - left. split; [reflexivity|]. intros (m & Hm & _). discriminate.
Qed.

Lemma in_resolved_sources :
  forall docs x l,
    In x (map source_id (flat_map (resolved decimal int_max_str_digits docs) l))
    <-> exists index_str,
          In index_str l
          /\ x = bracketed index_str
          /\ exists n, int index_str = Ok n
                       /\ (1 <= n <= Z.of_nat (List.length docs))%Z.
Proof.
  intros docs x l. rewrite in_map_iff. split.
  - intros (r & <- & Hr). apply in_flat_map in Hr. destruct Hr as (s & Hs & Hr).
    destruct (resolved_cases docs s) as [[E _]|(n & doc & Hn & Hb & _ & E)];
      rewrite E in Hr; [contradiction|].
    destruct Hr as [<-|[]]. exists s. eauto.
  - intros (s & Hs & -> & n & Hn & Hb).
    destruct (resolved_cases docs s) as [[_ E]|(m & doc & _ & _ & _ & E)].
    + exfalso. apply E. eauto.
    + exists (ref_data s doc). split; [reflexivity|].
      apply in_flat_map. exists s. split; [exact Hs | rewrite E; now left].
Qed.

Lemma resolved_sources_NoDup :
  forall docs l,
    NoDup l ->
    NoDup (map source_id (flat_map (resolved decimal int_max_str_digits docs) l)).
Proof.
  intros docs l H. induction H as [|s l Hs H IH]; simpl; [constructor|].
  rewrite map_app.
  destruct (resolved_cases docs s) as [[E _]|(n & doc & _ & _ & _ & E)];
    rewrite E; simpl; [exact IH|].
  constructor; [|exact IH]. intro Hin. apply in_resolved_sources in Hin.
  destruct Hin as (s' & Hs' & Hb & _). apply bracketed_inj in Hb. now subst s'.
Qed.

Lemma resolved_length :
  forall docs l,
    List.length (flat_map (resolved decimal int_max_str_digits docs) l)
    <= List.length l.
Proof.
  intros docs l. induction l as [|s l IH]; simpl; [lia|].
  rewrite length_app.
  destruct (resolved_cases docs s) as [[E _]|(n & doc & _ & _ & _ & E)];
    rewrite E; simpl; lia.
Qed.

Lemma take_digits_run :
  forall s, forallb digit s = true -> take_digits decimal (s ++ lit "]") = s.
Proof.
  induction s as [|c s IH]; intro H; simpl.
  - unfold is_digit. now rewrite close_bracket_not_digit.
  - simpl in H. apply andb_true_iff in H. destruct H as [Hc Hs].
    rewrite Hc. now rewrite IH.
Qed.

(** The sort key of a reference is the integer its index denotes. *)
Lemma key_of_ref_data :
  forall index_str doc, digits index_str -> key (ref_data index_str doc) = int index_str.
Proof.
  intros index_str doc [Hne Hd]. unfold sort_key, ref_data, bracketed. simpl.
  unfold is_digit at 1. rewrite open_bracket_not_digit.
  destruct index_str as [|c s]; [contradiction|].
  pose proof Hd as Hd'. simpl in Hd'. apply andb_true_iff in Hd'. destruct Hd' as [Hc _].
  cbn [app search_digits]. rewrite Hc.
  change (c :: s ++ lit "]") with ((c :: s) ++ lit "]").
  now rewrite (take_digits_run _ Hd).
Qed.

Lemma keyed_loop :
  forall refs,
    Forall (fun r => exists k, key r = Ok k) refs ->
    exists keyed,
      for_each (fun r => k <- key r ;; Ok [(k, r)]) refs = Ok keyed
      /\ map snd keyed = refs
      /\ Forall (fun kr => key (snd kr) = Ok (fst kr)) keyed.
Proof.
  induction 1 as [|r refs [k Hk] _ (keyed & E & Hm & Hf)]; simpl.
  - exists []. repeat split; constructor.
  - exists ((k, r) :: keyed). rewrite Hk, E. simpl.
    repeat split; [now rewrite Hm | now constructor].
Qed.

(** The shape of every run of the extraction. *)
Lemma extract_shape :
  forall response_text docs,
    exists keyed,
      extract response_text docs = Ok (map snd (sort_keyed keyed))
      /\ map snd keyed
         = flat_map (resolved decimal int_max_str_digits docs)
             (set_order (nodup str_eq_dec (findall decimal response_text)))
      /\ Forall (fun kr => key (snd kr) = Ok (fst kr)) keyed.
Proof.
  intros response_text docs. unfold _extract_references.
  rewrite (for_each_pure _ _ (resolve_resolved docs)). simpl.
  set (cited := set_order (nodup str_eq_dec (findall decimal response_text))).
  destruct (@keyed_loop (flat_map (resolved decimal int_max_str_digits docs) cited))
    as (keyed & E & Hm & Hf).
  - apply Forall_forall. intros r Hr. apply in_flat_map in Hr.
    destruct Hr as (s & Hs & Hr).
    destruct (resolved_cases docs s) as [[R _]|(n & doc & Hn & _ & _ & R)];
      rewrite R in Hr; [contradiction|]. destruct Hr as [<-|[]].
    exists n. rewrite key_of_ref_data; [exact Hn|].
    assert (In s (findall decimal response_text)) as Hin.
    { apply (nodup_In str_eq_dec).
      eapply Permutation_in; [apply set_order_permutes | exact Hs]. }
    pose proof (findall_digits response_text) as F.
    rewrite Forall_forall in F. now apply F.
  - exists keyed. rewrite E. simpl. auto.
Qed.

Lemma cited_NoDup :
  forall response_text,
    NoDup (set_order (nodup str_eq_dec (findall decimal response_text))).
Proof.
  intro response_text.
  eapply Permutation_NoDup; [symmetry; apply set_order_permutes|].
  apply NoDup_nodup.
Qed.

Lemma in_cited :
  forall response_text s,
    In s (set_order (nodup str_eq_dec (findall decimal response_text)))
    <-> In s (findall decimal response_text).
Proof.
  intros response_text s. split; intro H.
  - apply (nodup_In str_eq_dec).
    eapply Permutation_in; [apply set_order_permutes | exact H].
  - eapply Permutation_in; [symmetry; apply set_order_permutes|].
    now apply nodup_In.
Qed.

(** The references returned are, up to order, those the cited indices
    resolve to. *)
Lemma extract_permutation :
  forall response_text docs refs,
    extract response_text docs = Ok refs ->
    Permutation refs
      (flat_map (resolved decimal int_max_str_digits docs)
         (set_order (nodup str_eq_dec (findall decimal response_text)))).
Proof.
  intros response_text docs refs H.
  destruct (extract_shape response_text docs) as (keyed & E & Hm & _).
  rewrite E in H. injection H as <-. rewrite <- Hm.
  apply Permutation_map. apply sort_keyed_perm.
Qed.

(** C2 (as amended).  The citations returned come from the markers of
    the text, one for each distinct marker text that resolves: no two
    of them have the same marker text, and they are in ascending order
    of the integer their marker denotes. *)
Theorem C2_citations_distinct_and_sorted :
  forall response_text docs refs,
    extract response_text docs = Ok refs ->
    Forall
      (fun r =>
         exists index_str,
           In index_str (findall decimal response_text)
           /\ source_id r = bracketed index_str)
      refs
    /\ NoDup (map source_id refs)
    /\ exists keys, map key refs = map Ok keys /\ Sorted Z.le keys.
Proof.
  intros response_text docs refs H.
  pose proof (extract_permutation _ _ H) as P.
  split; [|split].
  - apply Forall_forall. intros r Hr.
    assert (In (source_id r)
              (map source_id
                 (flat_map (resolved decimal int_max_str_digits docs)
                    (set_order (nodup str_eq_dec (findall decimal response_text)))))) as Hin.
    { apply in_map. eapply Permutation_in; eauto. }
    apply in_resolved_sources in Hin. destruct Hin as (s & Hs & Hb & _).
    exists s. split; [now apply in_cited | exact Hb].
  - eapply Permutation_NoDup.
    + apply Permutation_map. symmetry. exact P.
    + apply resolved_sources_NoDup. apply cited_NoDup.
  - destruct (extract_shape response_text docs) as (keyed & E & _ & Hf).
    rewrite E in H. injection H as <-.
    exists (map fst (sort_keyed keyed)). split.
    + rewrite !map_map. apply map_ext_in. intros kr Hkr.
      rewrite Forall_forall in Hf. apply Hf.
      eapply Permutation_in; [apply sort_keyed_perm | exact Hkr].
    + apply sorted_keys. apply sort_keyed_sorted.
Qed.

(** C9 (as amended).  Citation extraction never raises.  A marker text
    of the answer is resolved to a citation exactly when [int] reads it
    as an integer [n] with [1 <= n <= L], for [L] candidates; every
    other marker is discarded; every citation is built from the
    candidate at position [n - 1]; and there are at most as many
    citations as distinct marker texts. *)
Theorem C9_extraction_total :
  forall response_text docs,
    exists refs,
      extract response_text docs = Ok refs
      /\ (forall index_str,
             In index_str (findall decimal response_text) ->
             (In (bracketed index_str) (map source_id refs)
              <-> exists n, int index_str = Ok n
                            /\ (1 <= n <= Z.of_nat (List.length docs))%Z))
      /\ Forall
           (fun r =>
              exists index_str n doc,
                int index_str = Ok n
                /\ nth_error docs (Z.to_nat (n - 1)) = Some doc
                /\ r = ref_data index_str doc)
           refs
      /\ List.length refs
         <= List.length (nodup str_eq_dec (findall decimal response_text)).
Proof.
  intros response_text docs.
  destruct (extract_shape response_text docs) as (keyed & E & _ & _).
  exists (map snd (sort_keyed keyed)). split; [exact E|].
  pose proof (extract_permutation _ _ E) as P.
  set (cited := set_order (nodup str_eq_dec (findall decimal response_text))) in *.
  split; [|split].
  - intros s Hs. split.
    + intro Hin.
      assert (In (bracketed s)
                (map source_id (flat_map (resolved decimal int_max_str_digits docs) cited)))
        as Hin' by (eapply Permutation_in; [apply Permutation_map; exact P | exact Hin]).
      apply in_resolved_sources in Hin'. destruct Hin' as (s' & _ & Hb & Hn).
      apply bracketed_inj in Hb. now subst s'.
    + intro Hn.
      eapply Permutation_in; [apply Permutation_map; symmetry; exact P|].
      apply in_resolved_sources. exists s. split; [now apply in_cited | auto].
  - apply Forall_forall. intros r Hr.
    assert (In r (flat_map (resolved decimal int_max_str_digits docs) cited)) as Hr'
      by (eapply Permutation_in; eauto).
    apply in_flat_map in Hr'. destruct Hr' as (s & _ & Hin).
    destruct (resolved_cases docs s) as [[R _]|(n & doc & Hn & _ & Hd & R)];
      rewrite R in Hin; [contradiction|]. destruct Hin as [<-|[]].
    exists s, n, doc. auto.
  - rewrite (Permutation_length P).
    etransitivity; [apply resolved_length|].
    unfold cited. now rewrite (Permutation_length (set_order_permutes _)).
Qed.

End CitationFacts.

(* ===================================================================== *)
(** ** Worked examples *)
(* ===================================================================== *)

(** The threshold itself is "work"; the next double below it is
    "personal". *)
Example decision_at_threshold :
  accessibility_decision plain_repr_float plain_repr_str (classified (PFloat 0.9%float))
  = Ok (lit "work", PFloat 0.9%float).
Proof. vm_compute. reflexivity. Qed.

Example decision_below_threshold :
  accessibility_decision plain_repr_float plain_repr_str (classified (PFloat 0.8999999999999999%float))
  = Ok (lit "personal", PFloat (1 - 0.8999999999999999)%float).
Proof. vm_compute. reflexivity. Qed.

Example decision_on_integer :
  accessibility_decision plain_repr_float plain_repr_str (classified (PInt 1)) = Ok (lit "work", PInt 1)
  /\ accessibility_decision plain_repr_float plain_repr_str (classified (PInt 0)) = Ok (lit "personal", PInt 1).
Proof. split; vm_compute; reflexivity. Qed.


Lemma C4_normalizer_shapes_witness :
  unrecognized (PInt 5)
  /\ normalize (PInt 5) = None
  /\ s3_json_load_ingest plain_repr_float plain_repr_str [] Splitter.split_text
      plain_urlparse plain_client plain_uri
       (classified (PFloat 0.9%float)) (PInt 5) = ReturnsEmpty.
Proof.
  split; [exact I|].
  destruct (C4_normalizer_shapes plain_repr_float plain_repr_str []
              Splitter.split_text plain_urlparse plain_client plain_uri)
    as (_ & _ & _ & H).
  destruct (H (PInt 5) I) as (Hn & _ & Hi).
  split; [exact Hn|].
  apply (Hi (classified (PFloat 0.9%float)) (lit "work") (PFloat 0.9%float)
            (lit "il-raw-chats", lit "agent_conversation/pdf_to_json.json"));
    vm_compute; reflexivity.
Defined.



Lemma C7_ownership_key_mismatch_witness :
  exists chunk,
    s3_json_load_ingest plain_repr_float plain_repr_str [] Splitter.split_text
      plain_urlparse plain_client plain_uri
      (classified (PFloat 0.9%float)) two_chats = Upserts [chunk]
    /\ Dict.get (lit "chat_account") (metadata chunk) = Some (PStr (lit "alice"))
    /\ filter_matches condition_holds (pinecone_filter (Some (lit "alice")))
         (metadata chunk) = false.
Proof.
  assert (E : forall value, condition_holds (PDict [(lit "$eq", value)]) None = false)
    by (intros [| | | | | |]; reflexivity).
  destruct (@C7_ownership_key_mismatch plain_repr_float plain_repr_str []
              Splitter.split_text plain_urlparse plain_client plain_uri
              condition_holds E) as (_ & _ & H).
  eexists. split; [vm_compute; reflexivity|]. split; [reflexivity|].
  specialize (H (classified (PFloat 0.9%float)) two_chats _ eq_refl).
  apply Forall_inv in H. destruct H as (_ & _ & H). apply H. discriminate.
Defined.

(** Two turns without identifiers get the same chunk identifier. *)
Lemma C3_counterexample :
  exists chunks,
    s3_json_load_ingest plain_repr_float plain_repr_str [] Splitter.split_text
      plain_urlparse plain_client plain_uri
      (classified (PFloat 0.9%float)) anonymous_turns = Upserts chunks
    /\ map chunk_id_of chunks
       = [ Some (PStr (lit "None::None::0")); Some (PStr (lit "None::None::0")) ]
    /\ ~ NoDup (map chunk_id_of chunks).
Proof.
  eexists. split; [vm_compute; reflexivity|]. split; [vm_compute; reflexivity|].
  intro H. inversion H as [|x l Hx _]. apply Hx. now left.
Qed.

Lemma C3_chunk_ids_witness :
  exists docs chunks chunks',
    flatten plain_repr_float plain_repr_str [] (lit "work") (PFloat 0.9%float)
      two_chats = Ok docs
    /\ map (turn_key plain_repr_float plain_repr_str) docs
       = [ lit "c1::1"; lit "c1::2" ]
    /\ NoDup (map chunk_id_of
                (flat_map (chunk_document plain_repr_float plain_repr_str
                             Splitter.split_text) docs))
    /\ s3_json_load_ingest plain_repr_float plain_repr_str [] Splitter.split_text
         plain_urlparse plain_client plain_uri
         (classified (PFloat 0.9%float)) two_chats = Upserts chunks
    /\ s3_json_load_ingest plain_repr_float plain_repr_str
         [ (lit "CHAT_USER", lit "bob") ] Splitter.split_text
         plain_urlparse plain_client (lit "s3://elsewhere/chats.json")
         (classified (PFloat 0.25%float)) two_chats = Upserts chunks'
    /\ map chunk_id_of chunks = map chunk_id_of chunks'
    /\ map chunk_id_of chunks = [ Some (PStr (lit "c1::1::0")) ].
Proof.
  destruct (C3_chunk_ids plain_repr_float plain_repr_str [] Splitter.split_text
              plain_urlparse plain_client plain_uri)
    as (_ & _ & Hbatch & H).
  eexists. eexists. eexists. split; [vm_compute; reflexivity|].
  split; [vm_compute; reflexivity|]. split.
  - apply Hbatch. vm_compute.
    constructor; [intros [E|[]]; discriminate E|].
    constructor; [intros []|constructor].
  - split; [vm_compute; reflexivity|].
    split; [vm_compute; reflexivity|]. split; [|vm_compute; reflexivity].
    apply (H [ (lit "CHAT_USER", lit "bob") ] plain_urlparse plain_client
             (lit "s3://elsewhere/chats.json")
             (classified (PFloat 0.9%float))
             (classified (PFloat 0.25%float)) two_chats);
      vm_compute; reflexivity.
Defined.


Example split_long_text :
  map (@List.length N) (Splitter.split_text (repeat 97%N 400)) = [150; 150; 150; 40].
Proof. vm_compute. reflexivity. Qed.

(* --------------------------------------------------------------------- *)
(** *** Citations *)

Lemma ascii_brackets_not_digits :
  ascii_decimal 91 = None /\ ascii_decimal 93 = None.
Proof. split; reflexivity. Qed.

(** The scenario of section 8. *)
Example citations_of_section_8 :
  _extract_references ascii_decimal (fun l => l) 4300
    (lit "A [3] and B [1], again [1], never [5].") three_candidates
  = Ok [ ref_data (lit "1") (candidate "first");
         ref_data (lit "3") (candidate "third") ].
Proof. vm_compute. reflexivity. Qed.

Lemma C2_citations_distinct_and_sorted_witness :
  exists refs,
    _extract_references ascii_decimal (fun l => l) 4300
      (lit "A [3] and B [1].") three_candidates = Ok refs
    /\ NoDup (map source_id refs)
    /\ exists keys,
         map (sort_key ascii_decimal 4300) refs = map Ok keys /\ Sorted Z.le keys.
Proof.
  eexists. split; [vm_compute; reflexivity|].
  eapply (@C2_citations_distinct_and_sorted ascii_decimal (fun l => l) 4300
            (fun l => Permutation_refl l) eq_refl eq_refl
            (lit "A [3] and B [1].") three_candidates).
  vm_compute. reflexivity.
Defined.

(** The markers [1] and [01] denote the same integer and both stay. *)
Lemma C2_counterexample :
  exists refs keys,
    _extract_references ascii_decimal (fun l => l) 4300
      (lit "See [1] and [01].") three_candidates = Ok refs
    /\ map source_id refs = [ lit "[1]"; lit "[01]" ]
    /\ map (sort_key ascii_decimal 4300) refs = map Ok keys
    /\ ~ NoDup keys.
Proof.
  eexists. exists [1; 1]%Z. split; [vm_compute; reflexivity|].
  split; [vm_compute; reflexivity|]. split; [vm_compute; reflexivity|].
  intro H. inversion H as [|x l Hx _]. apply Hx. now left.
Qed.

Lemma C9_extraction_total_witness :
  exists refs,
    _extract_references ascii_decimal (fun l => l) 4300
      (lit "A [3] and B [0], never [5].") three_candidates = Ok refs
    /\ List.length refs <= 3.
Proof.
  destruct (@C9_extraction_total ascii_decimal (fun l => l) 4300
              (fun l => Permutation_refl l) eq_refl eq_refl
              (lit "A [3] and B [0], never [5].") three_candidates)
    as (refs & E & _ & _ & L).
  exists refs. split; [exact E|]. exact L.
Defined.

(** One candidate, two citations. *)
Lemma C9_counterexample :
  exists refs,
    _extract_references ascii_decimal (fun l => l) 4300
      (lit "See [1] and [01].") [candidate "only"] = Ok refs
    /\ ~ List.length refs <= List.length [candidate "only"].
Proof.
  eexists. split; [vm_compute; reflexivity|]. simpl. lia.
Qed.

(* --------------------------------------------------------------------- *)
(** *** The timestamp of a citation *)

(** Ingestion never writes the key the extractor reads. *)
Lemma ingested_metadata_has_no_timestamp :
  forall repr_float repr_str environ split_text urlparse boto3_client s3_uri
         lambda_response data chunks,
    s3_json_load_ingest repr_float repr_str environ split_text
      urlparse boto3_client s3_uri lambda_response data
    = Upserts chunks ->
    Forall (fun c => forall index_str,
              timestamp (ref_data index_str c) = PStr (lit "N/A")) chunks.
Proof.
  intros repr_float repr_str environ split_text urlparse boto3_client s3_uri
         lambda_response data chunks H.
  apply ingest_Upserts_inv in H.
  destruct H as (label & score & chats & docs & _ & _ & Hf & ->).
  apply Forall_flat_map.
  assert (T : Forall (fun d => Dict.get (lit "timestamp") (metadata d) = None) docs).
  { unfold flatten in Hf. apply bind_Ok in Hf. destruct Hf as (cs & _ & Hf).
    revert Hf. apply for_each_Forall. intros chat out H. unfold chat_documents in H.
    apply bind_Ok in H. destruct H as (has & _ & H). destruct has; simpl in H.
    - apply bind_Ok in H. destruct H as (messages & _ & H).
      apply bind_Ok in H. destruct H as (msgs & _ & H). revert H.
      apply for_each_Forall. intros msg out' H. apply message_document_inv in H.
      destruct H as (? & ? & ? & _ & _ & _ & ->). repeat constructor.
    - skipped H. constructor. }
  revert T. apply Forall_impl. intros d Hd.
  pose proof (@chunk_document_metadata repr_float repr_str split_text
                (lit "timestamp") d ltac:(vm_compute; discriminate)
                ltac:(vm_compute; discriminate)) as K.
  revert K. apply Forall_impl. intros c Hc index_str.
  unfold ref_data, Dict.get_default. simpl. now rewrite Hc, Hd.
Qed.

(** C10.  A turn ingested with a timestamp, retrieved and cited: the
    candidate's metadata holds the timestamp under "turn_timestamp",
    the citation's timestamp field holds "N/A". *)
Theorem C10_timestamp_not_carried :
  exists chunk r,
    s3_json_load_ingest plain_repr_float plain_repr_str [] Splitter.split_text
      plain_urlparse plain_client plain_uri
      (classified (PFloat 0.9%float)) two_chats = Upserts [chunk]
    /\ Dict.get (lit "turn_timestamp") (metadata chunk)
       = Some (PStr (lit "2024-05-01T10:00:00"))
    /\ _extract_references ascii_decimal (fun l => l) 4300
         (lit "Reset it in the settings [1].") [chunk] = Ok [r]
    /\ title r = PStr (lit "Windows settings")
    /\ chat_id r = PStr (lit "c1")
    /\ turn_id r = PInt 1
    /\ timestamp r = PStr (lit "N/A").
Proof.
  eexists. eexists. split; [vm_compute; reflexivity|].
  split; [vm_compute; reflexivity|]. split; [vm_compute; reflexivity|].
  repeat split; vm_compute; reflexivity.
Qed.

(* ===================================================================== *)
(** ** Ingestion: exceptions, malformed entries, shapes *)
(* ===================================================================== *)









Lemma for_each_raises :
  forall (A B : Type) (body : A -> result (list B)) xs x,
    In x xs -> (exists e, body x = Raise e) -> exists e, for_each body xs = Raise e.
Proof.
  intros A B body. induction xs as [|a xs IH]; intros x Hin Hx; [destruct Hin|].
  simpl. destruct (body a) as [out|e] eqn:E; simpl; [|eauto].
  destruct Hin as [->|Hin].
  - destruct Hx as (e & Hx). congruence.
  - destruct (IH x Hin Hx) as (e & ->). simpl. eauto.
Qed.

Section IngestionEdges.

Variable repr_float : float -> str.
Variable repr_str : str -> str.
Variable environ : list (str * str).
Variable split_text : str -> list str.
Variable urlparse : str -> result (str * str).
Variable boto3_client : str -> result unit.
Variable s3_uri : str.

Local Notation "'ingest'" :=
  (s3_json_load_ingest repr_float repr_str environ split_text
     urlparse boto3_client s3_uri).


Lemma chat_documents_not_object :
  forall label score chat,
    (forall kvs, chat <> PDict kvs) ->
    exists e, chat_documents repr_float repr_str environ label score chat = Raise e.
Proof.
  intros label score chat H. unfold chat_documents.
  destruct chat as [| | | |s|xs|kvs]; simpl; eauto.
  - destruct (contains _ s); simpl; eauto.
  - destruct (existsb _ xs); simpl; eauto.
  - exfalso. now apply (H kvs).
Qed.

Lemma message_document_not_object :
  forall label score chat msg,
    (forall kvs, msg <> PDict kvs) ->
    exists e, message_document environ label score chat msg = Raise e.
Proof.
  intros label score chat msg H. unfold message_document.
  destruct msg as [| | | | | |kvs]; simpl; eauto.
  exfalso. now apply (H kvs).
Qed.

Lemma ingest_of_failed_flatten :
  forall lambda_response label score location chats e,
    accessibility_decision repr_float repr_str lambda_response = Ok (label, score) ->
    locate urlparse boto3_client s3_uri = Ok location ->
    flatten repr_float repr_str environ label score (PList chats) = Raise e ->
    ingest lambda_response (PList chats) = ReturnsEmpty.
Proof.
  intros lambda_response label score location chats e D L F.
  unfold s3_json_load_ingest.
  destruct (truthy lambda_response); simpl; [|reflexivity].
  rewrite D, L. unfold process. simpl. now rewrite F.
Qed.

(** X2.  One malformed entry discards the whole batch: if an entry of the
    list of chats is not an object, or an entry of a chat's list of
    messages is not an object, nothing is ingested and the call, which
    came to read the batch, returns the empty list, whatever the other
    chats are. *)
Theorem malformed_entry_discards_the_batch :
  forall lambda_response label score location chats,
    accessibility_decision repr_float repr_str lambda_response = Ok (label, score) ->
    locate urlparse boto3_client s3_uri = Ok location ->
    ((exists entry, In entry chats /\ forall kvs, entry <> PDict kvs)
     \/ (exists kvs msgs msg,
            In (PDict kvs) chats
            /\ Dict.get (lit "messages") kvs = Some (PList msgs)
            /\ In msg msgs
            /\ forall m, msg <> PDict m)) ->
    ingest lambda_response (PList chats) = ReturnsEmpty.
Proof.
  intros lambda_response label score location chats D L H.
  assert (exists e, flatten repr_float repr_str environ label score (PList chats) = Raise e) as (e & F).
  { unfold flatten. simpl.
    destruct H as [(entry & Hin & Hno) | (kvs & msgs & msg & Hin & Hm & Hmsg & Hno)].
    - eapply for_each_raises; [exact Hin|]. now apply chat_documents_not_object.
    - eapply for_each_raises; [exact Hin|]. unfold chat_documents. simpl.
      unfold Dict.mem. rewrite Hm. simpl.
      eapply for_each_raises; [exact Hmsg|]. now apply message_document_not_object. }
  eapply ingest_of_failed_flatten; eauto.
Qed.

(** X3.  The three shapes of input carry the same chats: a single chat
    object is ingested like the one-element list of it, and a wrapper
    object (with "data" and without "messages") like the value under
    "data". *)
Theorem shapes_are_ingested_alike :
  (forall lambda_response kvs,
      Dict.mem (lit "messages") kvs = true ->
      ingest lambda_response (PDict kvs) = ingest lambda_response (PList [PDict kvs]))
  /\ (forall lambda_response wrapper chats,
         Dict.mem (lit "messages") wrapper = false ->
         Dict.get (lit "data") wrapper = Some (PList chats) ->
         ingest lambda_response (PDict wrapper) = ingest lambda_response (PList chats)).
Proof.
  split.
  - intros lambda_response kvs H. unfold s3_json_load_ingest, process.
    cbn [normalize]. now rewrite H.
  - intros lambda_response wrapper chats Hm Hd.
    unfold s3_json_load_ingest, process. cbn [normalize]. now rewrite Hm, Hd.
Qed.

(** X4.  No turn is lost and the order is kept: a successful flattening has
    exactly one content unit for each turn of each chat that carries
    messages, and flattening a batch made of two parts succeeds exactly
    when both parts do, giving the units of the first followed by those
    of the second. *)
Theorem flatten_one_unit_per_turn_in_order :
  (forall label score chats docs,
      flatten repr_float repr_str environ label score (PList chats) = Ok docs ->
      List.length docs = list_sum (map turn_count chats))
  /\ (forall label score first second docs,
         flatten repr_float repr_str environ label score (PList (first ++ second)) = Ok docs
         <-> exists docs1 docs2,
               flatten repr_float repr_str environ label score (PList first) = Ok docs1
               /\ flatten repr_float repr_str environ label score (PList second) = Ok docs2
               /\ docs = docs1 ++ docs2).
Proof.
  split.
  - intros label score chats docs H. unfold flatten in H. simpl in H.
    exact (for_each_length _ turn_count
             (fun c o => @chat_documents_length repr_float repr_str environ label score c o) _ H).
  - intros label score first second docs. unfold flatten. simpl.
    rewrite for_each_app. split.
    + intro H. apply bind_Ok in H. destruct H as (d1 & H1 & H).
      apply bind_Ok in H. destruct H as (d2 & H2 & H). injection H as <-.
      exists d1, d2. auto.
    + intros (d1 & d2 & H1 & H2 & ->). now rewrite H1, H2.
Qed.

Lemma enumerate_snd :
  forall (A : Type) (xs : list A), map snd (enumerate xs) = xs.
Proof.
  intros A xs. unfold enumerate. generalize 0.
  induction xs as [|x xs IH]; intro n; simpl; [reflexivity|]. now rewrite IH.
Qed.

(** X5.  The chunks of a content unit are the segments of its text, in
    order; their "chunk_index" counts from 0; and every other metadata
    key, apart from "chunk_id", reads as in the content unit. *)
Theorem chunks_are_the_segments_in_order :
  forall d,
    map page_content (chunk_document repr_float repr_str split_text d)
    = split_text (page_content d)
    /\ map (fun c => Dict.get (lit "chunk_index") (metadata c))
         (chunk_document repr_float repr_str split_text d)
       = map (fun i => Some (PInt (Z.of_nat i)))
           (seq 0 (List.length (split_text (page_content d))))
    /\ (forall k,
           k <> lit "chunk_index" -> k <> lit "chunk_id" ->
           Forall (fun c => Dict.get k (metadata c) = Dict.get k (metadata d))
             (chunk_document repr_float repr_str split_text d)).
Proof.
  intro d. split; [|split].
  - unfold chunk_document. rewrite map_map. simpl. apply enumerate_snd.
  - unfold chunk_document. rewrite <- enumerate_fst, !map_map.
    apply map_ext. intros [i chunk]. simpl.
    rewrite get_set_other by (vm_compute; discriminate).
    now rewrite get_set_same.
  - intros k H1 H2. now apply chunk_document_metadata.
Qed.

(** X6.  The guard before the vector store looks at the content units, not
    at the chunks: a chat whose turns all lack a message text has
    content units and no chunk, and the empty batch is handed to the
    vector store. *)
Theorem blank_turns_reach_the_store_with_no_chunk :
  forall lambda_response label score location ckvs msgs,
    split_text [] = [] ->
    truthy lambda_response = true ->
    accessibility_decision repr_float repr_str lambda_response = Ok (label, score) ->
    locate urlparse boto3_client s3_uri = Ok location ->
    Dict.get (lit "messages") ckvs = Some (PList (map PDict msgs)) ->
    msgs <> [] ->
    Forall (fun m => Dict.get (lit "message") m = None) msgs ->
    ingest lambda_response (PDict ckvs) = Upserts [].
Proof.
  intros lambda_response label score location ckvs msgs Hs Ht D Hl Hm Hne Hblank.
  unfold s3_json_load_ingest. rewrite Ht, D, Hl. simpl.
  unfold process. cbn [normalize]. unfold Dict.mem. rewrite Hm.
  unfold flatten. cbn [py_iter bind for_each].
  unfold chat_documents. cbn [py_in bind]. unfold Dict.mem. rewrite Hm.
  cbn [negb getitem bind py_iter]. rewrite Hm. cbn [bind].
  assert (F : exists docs,
             for_each (message_document environ label score (PDict ckvs))
               (map PDict msgs) = Ok docs
             /\ List.length docs = List.length msgs
             /\ Forall (fun d => page_content d = []) docs).
  { clear Hne Hm. induction Hblank as [|m msgs Hmsg _ (docs & E & L & B)].
    - exists []. repeat split. constructor.
    - cbn [map for_each]. rewrite E.
      unfold message_document at 1. cbn [py_get bind].
      unfold Dict.get_default at 1. rewrite Hmsg. cbn [py_or truthy new_Document bind].
      eexists. split; [reflexivity|]. split; [simpl; now rewrite L|].
      constructor; [reflexivity | exact B]. }
  destruct F as (docs & E & L & B). cbn [py_iter bind]. rewrite E. cbn [bind].
  rewrite app_nil_r.
  destruct docs as [|d docs]; [destruct msgs; [contradiction | discriminate]|].
  f_equal. clear E L. induction B as [|x l Hx _ IH]; [reflexivity|].
  simpl. rewrite IH. unfold chunk_document. now rewrite Hx, Hs.
Qed.

End IngestionEdges.

(* ===================================================================== *)
(** ** The index writer *)
(* ===================================================================== *)

Lemma str_in_spec :
  forall x names, str_in x names = true <-> In (PStr x) names.
Proof.
  intros x names. unfold str_in. rewrite existsb_exists. split.
  - intros (n & Hin & H). destruct n; try discriminate.
    apply str_eqb_eq in H. now subst.
  - intro H. exists (PStr x). split; [exact H | apply str_eqb_refl].
Qed.

Lemma index_names :
  forall list_indexes,
    (forall entry, In entry list_indexes ->
                   exists n, getitem entry (lit "name") = Ok n) ->
    exists names,
      for_each (fun i => name <- getitem i (lit "name") ;; Ok [name]) list_indexes
      = Ok names
      /\ forall n,
           In n names
           <-> exists entry, In entry list_indexes
                             /\ getitem entry (lit "name") = Ok n.
Proof.
  induction list_indexes as [|i rest IH]; intro H.
  - exists []. split; [reflexivity|]. intro n. split; [intros [] | intros (? & [] & _)].
  - destruct (H i (or_introl eq_refl)) as (n0 & Hn0).
    destruct IH as (names & E & Hnames); [intros; apply H; now right|].
    exists (n0 :: names). split; [simpl; now rewrite Hn0, E|].
    intro n. split.
    + intros [<-|Hin]; [exists i; split; [now left | exact Hn0]|].
      apply Hnames in Hin. destruct Hin as (entry & Hin & He).
      exists entry. split; [now right | exact He].
    + intros (entry & [<-|Hin] & He); [left; congruence|].
      right. apply Hnames. eauto.
Qed.

(** X7.  An index that exists is not created again: when an entry of the
    listing has the configured name, the batch is written and nothing
    else is done; when none has, the index is first created, with
    dimension 768 and the cosine metric. *)
Theorem index_is_created_only_when_missing :
  forall environ list_indexes chunked_docs,
    (forall entry, In entry list_indexes ->
                   exists n, getitem entry (lit "name") = Ok n) ->
    ((exists entry,
         In entry list_indexes
         /\ getitem entry (lit "name")
            = Ok (PStr (getenv_or environ (lit "PINECONE_INDEX") []))) ->
     index_writer environ list_indexes chunked_docs
     = Ok [ from_documents chunked_docs (getenv_or environ (lit "PINECONE_INDEX") []) ])
    /\ ((forall entry,
            In entry list_indexes ->
            getitem entry (lit "name")
            <> Ok (PStr (getenv_or environ (lit "PINECONE_INDEX") []))) ->
        index_writer environ list_indexes chunked_docs
        = Ok [ create_index (getenv_or environ (lit "PINECONE_INDEX") []) 768
                 (lit "cosine") (lit "aws") (lit "us-east-1");
               from_documents chunked_docs
                 (getenv_or environ (lit "PINECONE_INDEX") []) ]).
Proof.
  intros environ list_indexes chunked_docs Hnamed.
  destruct (index_names list_indexes Hnamed) as (names & E & Hnames).
  unfold index_writer. rewrite E. cbn [bind]. split.
  - intros (entry & Hin & He).
    assert (S : str_in (getenv_or environ (lit "PINECONE_INDEX") []) names = true).
    { apply str_in_spec. apply Hnames. eauto. }
    now rewrite S.
  - intro Hnone.
    destruct (str_in (getenv_or environ (lit "PINECONE_INDEX") []) names) eqn:S;
      [|reflexivity].
    apply str_in_spec in S. apply Hnames in S. destruct S as (entry & Hin & He).
    exfalso. exact (Hnone entry Hin He).
Qed.

(* ===================================================================== *)
(** ** Citations: answers without markers, queries, ingested candidates *)
(* ===================================================================== *)

(** X9.  A citation of an ingested turn shows what ingestion stored, never
    the fallback texts: ingestion writes "title", "chat_id" and
    "turn_id" for every turn, with [None] when the chat or the turn has
    no such field, so the citation carries that value ([None] included)
    and "Unknown Title" or "N/A" is not used for these three fields. *)
Theorem citations_of_ingested_turns_carry_stored_values :
  forall repr_float repr_str environ split_text label score ckvs mkvs d,
    message_document environ label score (PDict ckvs) (PDict mkvs) = Ok [d] ->
    Forall
      (fun c =>
         forall index_str,
           title (ref_data index_str c) = Dict.get_default (lit "title") PNone ckvs
           /\ chat_id (ref_data index_str c)
              = Dict.get_default (lit "chat_id") PNone ckvs
           /\ turn_id (ref_data index_str c)
              = Dict.get_default (lit "turn_id") PNone mkvs)
      (chunk_document repr_float repr_str split_text d).
Proof.
  intros repr_float repr_str environ split_text label score ckvs mkvs d H.
  apply message_document_inv in H.
  destruct H as (ckvs' & mkvs' & content & Ec & Em & _ & Hd).
  injection Ec as <-. injection Em as <-. injection Hd as Hd.
  pose proof (fun k H1 H2 =>
                @chunk_document_metadata repr_float repr_str split_text k
                  d H1 H2) as K.
  pose proof (K (lit "title") ltac:(vm_compute; discriminate)
                ltac:(vm_compute; discriminate)) as Kt.
  pose proof (K (lit "chat_id") ltac:(vm_compute; discriminate)
                ltac:(vm_compute; discriminate)) as Kc.
  pose proof (K (lit "turn_id") ltac:(vm_compute; discriminate)
                ltac:(vm_compute; discriminate)) as Ku.
  rewrite Forall_forall in Kt, Kc, Ku. apply Forall_forall. intros c Hc index_str.
  unfold ref_data, Dict.get_default. cbn [title chat_id turn_id].
  rewrite (Kt c Hc), (Kc c Hc), (Ku c Hc). subst d. repeat split.
Qed.

Section CitationEdges.

Variable decimal : N -> option Z.
Variable set_order : list str -> list str.
Variable int_max_str_digits : nat.

Hypothesis set_order_permutes : forall l, Permutation (set_order l) l.
Hypothesis open_bracket_not_digit : decimal 91 = None.
Hypothesis close_bracket_not_digit : decimal 93 = None.

Local Notation "'extract'" :=
  (_extract_references decimal set_order int_max_str_digits).

Lemma match_marker_needs_open :
  forall o s, is_open o = false -> match_marker decimal (o :: s) = None.
Proof. intros o s H. unfold match_marker. destruct s; [reflexivity|]. now rewrite H. Qed.

Lemma findall_without_open :
  forall s skip,
    Forall (fun c => is_open c = false) s -> findall_from decimal skip s = [].
Proof.
  induction s as [|c s IH]; intros skip H; [reflexivity|].
  inversion H as [|? ? Hc Hs]; subst. cbn [findall_from].
  destruct skip; [|now apply IH].
  rewrite (@match_marker_needs_open c s Hc). now apply IH.
Qed.

Lemma extract_of_nothing_resolved :
  forall response_text docs,
    flat_map (resolved decimal int_max_str_digits docs)
      (set_order (nodup str_eq_dec (findall decimal response_text))) = [] ->
    extract response_text docs = Ok [].
Proof.
  intros response_text docs H.
  destruct (@extract_shape decimal set_order int_max_str_digits set_order_permutes
              open_bracket_not_digit close_bracket_not_digit response_text docs)
    as (keyed & E & Hm & _).
  rewrite H in Hm. apply map_eq_nil in Hm. subst keyed. exact E.
Qed.

(** X10.  An answer that cites nothing, and an answer to a query for which
    nothing was retrieved, have no references: without an opening
    bracket in the text, or without candidates, the list is empty. *)
Theorem no_reference_without_marker_or_candidate :
  (forall response_text docs,
      Forall (fun c => is_open c = false) response_text ->
      extract response_text docs = Ok [])
  /\ (forall response_text, extract response_text [] = Ok []).
Proof.
  split.
  - intros response_text docs H. apply extract_of_nothing_resolved.
    unfold findall. rewrite (findall_without_open 0 H). simpl.
    pose proof (set_order_permutes []) as P. symmetry in P.
    apply Permutation_nil in P. now rewrite P.
  - intro response_text. apply extract_of_nothing_resolved.
    apply flat_map_nil. intro s.
    destruct (resolved_cases decimal int_max_str_digits [] s)
      as [[E _]|(n & doc & _ & Hb & _)]; [exact E|].
    simpl in Hb. lia.
Qed.

Variable similarity_search : str -> nat -> Dict.t -> list Document.
Variable chain_invoke : str -> str -> str.

Local Notation "'run_query'" :=
  (query decimal set_order int_max_str_digits similarity_search chain_invoke).

(** X11.  [query] answers whenever the store and the model do: it returns
    the model's text for the context of the ten candidates searched
    with the user's filter, unchanged, and references that are each
    built from one of those candidates; a missing or empty user gives
    the empty filter. *)
Theorem query_returns_the_answer_and_references_of_retrieved :
  forall question chat_user,
    exists r,
      run_query question chat_user = Ok r
      /\ answer r
         = chain_invoke
             (_format_docs_with_ids
                (similarity_search question 10 (pinecone_filter chat_user)))
             question
      /\ Forall
           (fun ref =>
              exists index_str doc,
                In doc (similarity_search question 10 (pinecone_filter chat_user))
                /\ ref = ref_data index_str doc)
           (references r)
      /\ (chat_user = None \/ chat_user = Some [] -> pinecone_filter chat_user = []).
Proof.
  intros question chat_user. unfold query, _get_retrieved_docs.
  set (docs := similarity_search question 10 (pinecone_filter chat_user)).
  set (ai := chain_invoke (_format_docs_with_ids docs) question).
  destruct (@extract_shape decimal set_order int_max_str_digits set_order_permutes
              open_bracket_not_digit close_bracket_not_digit ai docs)
    as (keyed & E & Hm & _).
  rewrite E. cbn [bind]. eexists. split; [reflexivity|].
  cbn [answer references]. split; [reflexivity|]. split.
  - apply Forall_forall. intros ref Hin.
    assert (In ref (map snd keyed)) as Hin'.
    { eapply Permutation_in; [|exact Hin]. apply Permutation_map, sort_keyed_perm. }
    rewrite Hm in Hin'. apply in_flat_map in Hin'. destruct Hin' as (s & _ & Hs).
    destruct (resolved_cases decimal int_max_str_digits docs s)
      as [[R _]|(n & doc & _ & _ & Hn & R)]; rewrite R in Hs; [contradiction|].
    destruct Hs as [<-|[]]. exists s, doc. split; [|reflexivity].
    eapply nth_error_In; eauto.
  - intros [->| ->]; reflexivity.
Qed.

End CitationEdges.

(* ===================================================================== *)
(** ** Citations: the order of a set does not show *)
(* ===================================================================== *)

Lemma sorted_permutation_unique :
  forall (A : Type) (l l' : list (Z * A)),
    Sorted (fun a b => (fst a <= fst b)%Z) l ->
    Sorted (fun a b => (fst a <= fst b)%Z) l' ->
    NoDup (map fst l) ->
    Permutation l l' ->
    l = l'.
Proof.
  intros A.
  assert (T : Relations_1.Transitive (fun a b : Z * A => (fst a <= fst b)%Z))
    by (intros x y z; lia).
  induction l as [|x l IH]; intros l' S S' N P.
  - apply Permutation_nil in P. now subst.
  - destruct l' as [|y l'].
    + symmetry in P. now apply Permutation_nil_cons in P.
    + assert (x = y) as ->.
      { apply Sorted_StronglySorted in S; [|exact T].
        apply Sorted_StronglySorted in S'; [|exact T].
        inversion S as [|? ? _ Fx]; subst. inversion S' as [|? ? _ Fy]; subst.
        rewrite Forall_forall in Fx, Fy.
        assert (In x (y :: l')) as Hx by (eapply Permutation_in; [exact P | now left]).
        assert (In y (x :: l)) as Hy
            by (eapply Permutation_in; [symmetry; exact P | now left]).
        destruct Hy as [Hy|Hy]; [now symmetry|].
        destruct Hx as [Hx|Hx]; [now symmetry|].
        exfalso. pose proof (Fx y Hy). pose proof (Fy x Hx).
        inversion N as [|? ? Hnot _]; subst. apply Hnot.
        replace (fst x) with (fst y) by lia. now apply in_map. }
      f_equal. apply IH.
      * now inversion S.
      * now inversion S'.
      * now inversion N.
      * eapply Permutation_cons_inv. exact P.
Qed.

Lemma NoDup_map_finer :
  forall (A B C : Type) (f : A -> B) (g : A -> C) (l : list A),
    NoDup (map g l) ->
    (forall a b, In a l -> In b l -> f a = f b -> g a = g b) ->
    NoDup (map f l).
Proof.
  intros A B C f g. induction l as [|a l IH]; intros N H; simpl; [constructor|].
  inversion N as [|? ? Hnot N']; subst. constructor.
  - intro Hin. apply in_map_iff in Hin. destruct Hin as (b & Hb & Hl).
    apply Hnot. rewrite <- (H b a); [now apply in_map | now right | now left | exact Hb].
  - apply IH; [exact N'|]. intros; apply H; auto; now right.
Qed.

Section SetOrder.

Variable decimal : N -> option Z.
Variable int_max_str_digits : nat.
Variable set_order set_order' : list str -> list str.

Hypothesis set_order_permutes : forall l, Permutation (set_order l) l.
Hypothesis set_order_permutes' : forall l, Permutation (set_order' l) l.
Hypothesis open_bracket_not_digit : decimal 91 = None.
Hypothesis close_bracket_not_digit : decimal 93 = None.

Local Notation "'int'" := (py_int decimal int_max_str_digits).
Local Notation "'key'" := (sort_key decimal int_max_str_digits).

Lemma keyed_by_function :
  forall keyed : list (Z * reference),
    Forall (fun kr => key (snd kr) = Ok (fst kr)) keyed ->
    keyed
    = map (fun r => (match key r with Ok k => k | Raise _ => 0%Z end, r))
        (map snd keyed).
Proof.
  induction 1 as [|[k r] keyed H _ IH]; simpl; [reflexivity|].
  simpl in H. rewrite H. now rewrite <- IH.
Qed.

Lemma keys_distinct :
  forall response_text docs order keyed,
    (forall l, Permutation (order l) l) ->
    (forall s s' n,
        In s (findall decimal response_text) ->
        In s' (findall decimal response_text) ->
        int s = Ok n -> int s' = Ok n -> s = s') ->
    map snd keyed
    = flat_map (resolved decimal int_max_str_digits docs)
        (order (nodup str_eq_dec (findall decimal response_text))) ->
    Forall (fun kr => key (snd kr) = Ok (fst kr)) keyed ->
    NoDup (map fst keyed).
Proof.
  intros response_text docs order keyed Hperm Hinj Hm Hk.
  assert (Hin : forall s,
             In s (order (nodup str_eq_dec (findall decimal response_text))) ->
             In s (findall decimal response_text)).
  { intros s Hs. apply (nodup_In str_eq_dec).
    eapply Permutation_in; [apply Hperm | exact Hs]. }
  assert (Hsrc : forall kr,
             In kr keyed ->
             exists s, In s (findall decimal response_text)
                       /\ source_id (snd kr) = bracketed s
                       /\ int s = Ok (fst kr)).
  { intros kr Hkr. rewrite Forall_forall in Hk. pose proof (Hk kr Hkr) as K.
    assert (In (snd kr) (map snd keyed)) as Hr by now apply in_map.
    rewrite Hm in Hr. apply in_flat_map in Hr. destruct Hr as (s & Hs & Hr).
    destruct (resolved_cases decimal int_max_str_digits docs s)
      as [[R _]|(n & doc & Hn & _ & _ & R)]; rewrite R in Hr; [contradiction|].
    destruct Hr as [Hr|[]]. exists s. split; [now apply Hin|].
    rewrite <- Hr in K |- *. split; [reflexivity|].
    rewrite key_of_ref_data in K; auto.
    pose proof (findall_digits decimal response_text) as F.
    rewrite Forall_forall in F. apply F. now apply Hin. }
  apply (@NoDup_map_finer _ _ _ fst (fun kr => source_id (snd kr))).
  - rewrite <- (map_map snd source_id), Hm.
    apply resolved_sources_NoDup.
    eapply Permutation_NoDup; [symmetry; apply Hperm | apply NoDup_nodup].
  - intros a b Ha Hb E.
    destruct (Hsrc a Ha) as (s & Hs & -> & Hn).
    destruct (Hsrc b Hb) as (s' & Hs' & -> & Hn').
    f_equal. rewrite E in Hn. eapply Hinj; eauto.
Qed.

(** X12.  The references do not depend on the order in which the set of
    marker texts is iterated, which changes from run to run, as long as
    no two marker texts of the answer denote the same integer. *)
Theorem references_do_not_depend_on_set_order :
  forall response_text docs,
    (forall s s' n,
        In s (findall decimal response_text) ->
        In s' (findall decimal response_text) ->
        int s = Ok n -> int s' = Ok n -> s = s') ->
    _extract_references decimal set_order int_max_str_digits response_text docs
    = _extract_references decimal set_order' int_max_str_digits response_text docs.
Proof.
  intros response_text docs Hinj.
  destruct (@extract_shape decimal set_order int_max_str_digits set_order_permutes
              open_bracket_not_digit close_bracket_not_digit response_text docs)
    as (keyed & E & Hm & Hk).
  destruct (@extract_shape decimal set_order' int_max_str_digits set_order_permutes'
              open_bracket_not_digit close_bracket_not_digit response_text docs)
    as (keyed' & E' & Hm' & Hk').
  rewrite E, E'. do 2 f_equal.
  assert (P : Permutation keyed keyed').
  { rewrite (keyed_by_function Hk), (keyed_by_function Hk'), Hm, Hm'.
    apply Permutation_map. apply Permutation_flat_map.
    rewrite set_order_permutes, set_order_permutes'. reflexivity. }
  apply sorted_permutation_unique.
  - apply sort_keyed_sorted.
  - apply sort_keyed_sorted.
  - eapply Permutation_NoDup.
    + apply Permutation_map. symmetry. apply sort_keyed_perm.
    + exact (@keys_distinct response_text docs set_order keyed
               set_order_permutes Hinj Hm Hk).
  - rewrite !sort_keyed_perm. exact P.
Qed.

End SetOrder.

(* ===================================================================== *)
(** ** The prompt context and the citations it invites *)
(* ===================================================================== *)

Lemma fold_left_append :
  forall (A : Type) (f : A -> str) (l : list A) (init : str),
    fold_left (fun acc x => acc ++ f x) l init = init ++ List.concat (map f l).
Proof.
  intros A f. induction l as [|x l IH]; intro init; simpl.
  - now rewrite app_nil_r.
  - rewrite IH. now rewrite <- app_assoc.
Qed.

Lemma string_of_uint_nonempty :
  forall d, NilEmpty.string_of_uint d = EmptyString -> d = Decimal.Nil.
Proof. intros [ | | | | | | | | | | ]; simpl; intro H; congruence. Qed.

Section ContextMarkers.

Variable decimal : N -> option Z.
Variable set_order : list str -> list str.
Variable int_max_str_digits : nat.

(** The table of decimal digits has the ASCII digits, with their
    values, and not the ASCII brackets. *)
Hypothesis ascii_digits :
  forall c, (48 <= c <= 57)%N -> decimal c = Some (Z.of_N c - 48)%Z.
Hypothesis open_bracket_not_digit : decimal 91 = None.
Hypothesis close_bracket_not_digit : decimal 93 = None.
Hypothesis set_order_permutes : forall l, Permutation (set_order l) l.

Local Notation "'digit'" := (is_digit decimal).
Local Notation "'int'" := (py_int decimal int_max_str_digits).
Local Notation "'key'" := (sort_key decimal int_max_str_digits).

Lemma digits_value_step :
  forall a s acc v,
    decimal (N_of_ascii a) = Some v ->
    digits_value decimal acc (lit (String a s))
    = digits_value decimal (10 * acc + v) (lit s).
Proof.
  intros a s acc v H. unfold lit. cbn [list_ascii_of_string map digits_value].
  now rewrite H.
Qed.

Lemma ascii_digit_value :
  forall (a : ascii) (v : Z),
    (48 <= N_of_ascii a <= 57)%N -> v = (Z.of_N (N_of_ascii a) - 48)%Z ->
    decimal (N_of_ascii a) = Some v.
Proof. intros a v H ->. now apply ascii_digits. Qed.

Lemma digits_value_acc :
  forall d p,
    digits_value decimal (Zpos p) (lit (NilEmpty.string_of_uint d))
    = Some (Zpos (Pos.of_uint_acc d p)).
Proof.
  induction d; intro p; cbn [NilEmpty.string_of_uint Pos.of_uint_acc];
    [reflexivity | ..];
    (erewrite digits_value_step
       by (apply ascii_digit_value; [vm_compute; split; discriminate | reflexivity]);
     match goal with
     | |- digits_value _ ?acc _ = Some (Zpos (Pos.of_uint_acc _ ?q)) =>
         replace acc with (Zpos q) by (vm_compute (Z.of_N _ - 48)%Z; lia)
     end; apply IHd).
Qed.

Lemma digits_value_uint :
  forall d,
    digits_value decimal 0 (lit (NilEmpty.string_of_uint d))
    = Some (Z.of_N (Pos.of_uint d)).
Proof.
  induction d; cbn [NilEmpty.string_of_uint Pos.of_uint];
    [reflexivity | ..];
    (erewrite digits_value_step
       by (apply ascii_digit_value; [vm_compute; split; discriminate | reflexivity]));
    [exact IHd | ..]; apply digits_value_acc.
Qed.

(** [int] reads back the decimal rendering of a positive integer. *)
Lemma digits_value_str_of_Z :
  forall p, digits_value decimal 0 (str_of_Z (Zpos p)) = Some (Zpos p).
Proof.
  intro p. rewrite str_of_Zpos, digits_value_uint.
  now rewrite DecimalPos.Unsigned.of_to.
Qed.

Lemma str_of_Z_digit_run :
  forall p, digit_run decimal (str_of_Z (Zpos p)).
Proof.
  intro p. rewrite str_of_Zpos. split.
  - intro H. destruct (NilEmpty.string_of_uint (Pos.to_uint p)) eqn:E;
      [|discriminate H].
    apply string_of_uint_nonempty in E.
    exact (DecimalPos.Unsigned.to_uint_nonnil p E).
  - apply forallb_forall. intros c Hc.
    pose proof (lit_uint_ascii_digits (Pos.to_uint p)) as F.
    rewrite Forall_forall in F. unfold is_digit.
    now rewrite (ascii_digits (F c Hc)).
Qed.

Lemma int_of_str_of_Z :
  forall p,
    (int_max_str_digits = 0
     \/ List.length (str_of_Z (Zpos p)) <= int_max_str_digits) ->
    int (str_of_Z (Zpos p)) = Ok (Zpos p).
Proof.
  intros p H. unfold py_int.
  replace (Nat.ltb 0 int_max_str_digits
           && Nat.ltb int_max_str_digits (List.length (str_of_Z (Zpos p))))
    with false.
  - destruct (str_of_Z_digit_run p) as [Hne _]. rewrite digits_value_str_of_Z.
    destruct (str_of_Z (Zpos p)); [contradiction | reflexivity].
  - symmetry. apply andb_false_iff.
    destruct H as [->|H]; [now left | right; apply Nat.ltb_ge; exact H].
Qed.

Lemma digits_then_close_run :
  forall ds rest,
    forallb digit ds = true ->
    digits_then_close decimal (ds ++ 93%N :: rest) = Some (ds, S (List.length ds)).
Proof.
  induction ds as [|c ds IH]; intros rest H; cbn [app digits_then_close].
  - unfold is_digit. now rewrite close_bracket_not_digit.
  - cbn [forallb] in H. apply andb_true_iff in H. destruct H as [Hc Hds].
    rewrite Hc, (IH rest Hds). reflexivity.
Qed.

Lemma findall_skip :
  forall passed rest,
    findall_from decimal (List.length passed) (passed ++ rest)
    = findall_from decimal 0 rest.
Proof.
  induction passed as [|c passed IH]; intro rest; [reflexivity|].
  cbn [List.length app findall_from]. apply IH.
Qed.

Lemma findall_after_plain_text :
  forall plain rest,
    Forall (fun c => is_open c = false) plain ->
    findall_from decimal 0 (plain ++ rest) = findall_from decimal 0 rest.
Proof.
  induction plain as [|c plain IH]; intros rest H; [reflexivity|].
  inversion H as [|? ? Hc Hp]; subst. cbn [app findall_from].
  rewrite (@match_marker_needs_open decimal c (plain ++ rest) Hc). now apply IH.
Qed.

(** A marker in ASCII brackets is found, and the search goes on after
    it. *)
Lemma findall_marker :
  forall ds rest,
    digit_run decimal ds ->
    findall_from decimal 0 (91%N :: ds ++ 93%N :: rest)
    = ds :: findall_from decimal 0 rest.
Proof.
  intros ds rest [Hne Hd]. destruct ds as [|d ds]; [contradiction|].
  pose proof Hd as Hd'. cbn [forallb] in Hd'. apply andb_true_iff in Hd'.
  destruct Hd' as [Hh Ht].
  remember ((d :: ds) ++ 93%N :: rest) as tail eqn:Et.
  cbn [findall_from].
  assert (M : match_marker decimal (91%N :: tail)
              = Some (d :: ds, 2 + S (List.length ds))).
  { subst tail. unfold match_marker. cbn [app].
    replace (is_open 91) with true by reflexivity. rewrite Hh. cbn [andb].
    now rewrite (digits_then_close_run ds rest Ht). }
  rewrite M. f_equal. subst tail.
  replace (2 + S (List.length ds) - 1) with (List.length ((d :: ds) ++ [93%N]))
    by (rewrite length_app; simpl; lia).
  replace ((d :: ds) ++ 93%N :: rest) with (((d :: ds) ++ [93%N]) ++ rest)
    by (now rewrite <- app_assoc).
  apply findall_skip.
Qed.

Lemma source_entry_then :
  forall i doc rest,
    source_entry i doc ++ rest
    = lit "Source "
      ++ 91%N :: str_of_Z (Z.of_nat i + 1)
      ++ 93%N :: (([58%N; 10%N] ++ page_content doc ++ [10%N; 10%N]) ++ rest).
Proof.
  intros i doc rest. unfold source_entry. rewrite <- !app_assoc. reflexivity.
Qed.

Lemma succ_as_positive :
  forall i, (Z.of_nat i + 1)%Z = Zpos (Pos.of_succ_nat i).
Proof. intro i. lia. Qed.

Lemma findall_entries :
  forall docs n,
    Forall (fun d => Forall (fun c => is_open c = false) (page_content d)) docs ->
    findall_from decimal 0
      (List.concat
         (map (fun idoc => source_entry (fst idoc) (snd idoc))
            (combine (seq n (List.length docs)) docs)))
    = map (fun i => str_of_Z (Z.of_nat i + 1)) (seq n (List.length docs)).
Proof.
  induction docs as [|d docs IH]; intros n H; [reflexivity|].
  inversion H as [|? ? Hd Hdocs]; subst.
  cbn [List.length seq combine map List.concat fst snd].
  rewrite source_entry_then.
  rewrite findall_after_plain_text by (vm_compute; repeat constructor).
  rewrite findall_marker
    by (rewrite succ_as_positive; apply str_of_Z_digit_run).
  f_equal.
  rewrite findall_after_plain_text; [now apply IH|].
  repeat (apply Forall_app; split); try exact Hd; repeat constructor.
Qed.

(** X13.  The markers of the prompt context are the positions of the
    candidates: in the text [_format_docs_with_ids] builds for [L]
    candidates whose texts have no opening bracket, the citation
    pattern finds "1", "2", ..., "L" in this order and nothing else. *)
Theorem context_offers_the_positions_as_markers :
  forall docs,
    Forall (fun d => Forall (fun c => is_open c = false) (page_content d)) docs ->
    findall decimal (_format_docs_with_ids docs)
    = map (fun i => str_of_Z (Z.of_nat i + 1)) (seq 0 (List.length docs)).
Proof.
  intros docs H. unfold findall, _format_docs_with_ids.
  rewrite (fold_left_append (fun idoc => source_entry (fst idoc) (snd idoc))).
  cbn [app]. unfold enumerate. now apply findall_entries.
Qed.

Lemma resolved_at :
  forall docs s n doc,
    int s = Ok n ->
    (1 <= n <= Z.of_nat (List.length docs))%Z ->
    nth_error docs (Z.to_nat (n - 1)) = Some doc ->
    resolved decimal int_max_str_digits docs s = [ref_data s doc].
Proof.
  intros docs s n doc Hn Hb Hd.
  destruct (resolved_cases decimal int_max_str_digits docs s)
    as [[_ H]|(n' & doc' & Hn' & _ & Hd' & ->)].
  - exfalso. apply H. eauto.
  - rewrite Hn in Hn'. injection Hn' as <-. rewrite Hd in Hd'. now injection Hd' as <-.
Qed.

Lemma resolved_positions :
  forall later earlier,
    (forall i, i < List.length (earlier ++ later) ->
               int (str_of_Z (Z.of_nat i + 1)) = Ok (Z.of_nat i + 1)%Z) ->
    flat_map (resolved decimal int_max_str_digits (earlier ++ later))
      (map (fun i => str_of_Z (Z.of_nat i + 1))
         (seq (List.length earlier) (List.length later)))
    = map (fun idoc => ref_data (str_of_Z (Z.of_nat (fst idoc) + 1)) (snd idoc))
        (combine (seq (List.length earlier) (List.length later)) later).
Proof.
  induction later as [|d later IH]; intros earlier Hint; [reflexivity|].
  cbn [List.length seq map flat_map combine fst snd].
  rewrite (@resolved_at (earlier ++ d :: later) _ (Z.of_nat (List.length earlier) + 1) d).
  - cbn [app]. f_equal.
    specialize (IH (earlier ++ [d])).
    rewrite <- app_assoc in IH. cbn [app] in IH.
    replace (List.length (earlier ++ [d])) with (S (List.length earlier)) in IH
      by (rewrite length_app; simpl; lia).
    apply IH. exact Hint.
  - apply Hint. rewrite length_app. simpl. lia.
  - rewrite length_app. simpl. lia.
  - replace (Z.to_nat (Z.of_nat (List.length earlier) + 1 - 1))
      with (List.length earlier) by lia.
    rewrite nth_error_app2 by lia. now rewrite Nat.sub_diag.
Qed.

Lemma positions_sorted :
  forall (docs : list Document) n,
    Sorted (fun a b : Z * reference => (fst a <= fst b)%Z)
      (map (fun idoc =>
              ((Z.of_nat (fst idoc) + 1)%Z,
               ref_data (str_of_Z (Z.of_nat (fst idoc) + 1)) (snd idoc)))
         (combine (seq n (List.length docs)) docs)).
Proof.
  induction docs as [|d docs IH]; intro n; [constructor|].
  cbn [List.length seq combine map]. constructor; [apply IH|].
  destruct docs as [|d' docs]; constructor. simpl. lia.
Qed.

Lemma combine_seq_fst :
  forall (A : Type) (xs : list A) n,
    map fst (combine (seq n (List.length xs)) xs) = seq n (List.length xs).
Proof.
  induction xs as [|x xs IH]; intro n; simpl; [reflexivity|]. now rewrite IH.
Qed.

(** X14.  The prompt and the extraction agree on the numbering: if the model
    answers with the context itself, citing every source, the
    references are those of all the candidates, in their order of
    retrieval, the candidate at position [i] under the marker
    "[i+1]". *)
Theorem citing_every_source_gives_every_candidate_in_order :
  forall docs,
    Forall (fun d => Forall (fun c => is_open c = false) (page_content d)) docs ->
    (int_max_str_digits = 0
     \/ forall i, i < List.length docs ->
                  List.length (str_of_Z (Z.of_nat i + 1)) <= int_max_str_digits) ->
    _extract_references decimal set_order int_max_str_digits
      (_format_docs_with_ids docs) docs
    = Ok (map (fun idoc => ref_data (str_of_Z (Z.of_nat (fst idoc) + 1)) (snd idoc))
            (enumerate docs)).
Proof.
  intros docs Hplain Hfit.
  assert (Hint : forall i, i < List.length docs ->
                           int (str_of_Z (Z.of_nat i + 1)) = Ok (Z.of_nat i + 1)%Z).
  { intros i Hi. rewrite succ_as_positive. apply int_of_str_of_Z.
    rewrite <- succ_as_positive. destruct Hfit as [->|Hfit]; [now left | right; auto]. }
  destruct (@extract_shape decimal set_order int_max_str_digits set_order_permutes
              open_bracket_not_digit close_bracket_not_digit
              (_format_docs_with_ids docs) docs) as (keyed & E & Hm & Hk).
  rewrite E. f_equal.
  rewrite (context_offers_the_positions_as_markers Hplain) in Hm.
  rewrite nodup_fixed_point in Hm.
  2:{ apply NoDup_map_injective; [|apply seq_NoDup].
      intros i j H. apply str_of_Z_inj in H. lia. }
  set (target :=
         map (fun idoc =>
                ((Z.of_nat (fst idoc) + 1)%Z,
                 ref_data (str_of_Z (Z.of_nat (fst idoc) + 1)) (snd idoc)))
           (enumerate docs)).
  assert (Ht : map snd target
               = flat_map (resolved decimal int_max_str_digits docs)
                   (map (fun i => str_of_Z (Z.of_nat i + 1))
                      (seq 0 (List.length docs)))).
  { unfold target. rewrite map_map. cbn [snd]. symmetry.
    exact (@resolved_positions docs [] Hint). }
  assert (Hkt : Forall (fun kr => key (snd kr) = Ok (fst kr)) target).
  { unfold target. apply Forall_forall. intros kr Hkr. apply in_map_iff in Hkr.
    destruct Hkr as ([i d] & <- & Hin). cbn [fst snd].
    rewrite key_of_ref_data; auto.
    - apply Hint. apply in_combine_l in Hin. apply in_seq in Hin. lia.
    - rewrite succ_as_positive. apply str_of_Z_digit_run. }
  assert (S : sort_keyed keyed = target).
  { apply sorted_permutation_unique.
    - apply sort_keyed_sorted.
    - apply positions_sorted.
    - eapply Permutation_NoDup with (l := map fst target).
      + apply Permutation_map. rewrite sort_keyed_perm.
        rewrite (@keyed_by_function decimal int_max_str_digits keyed Hk).
        rewrite (@keyed_by_function decimal int_max_str_digits target Hkt).
        apply Permutation_map. rewrite Hm, Ht.
        apply Permutation_flat_map. symmetry. apply set_order_permutes.
      + unfold target. rewrite map_map. cbn [fst].
        rewrite <- (map_map fst (fun i => (Z.of_nat i + 1)%Z)).
        unfold enumerate. rewrite combine_seq_fst.
        apply NoDup_map_injective; [|apply seq_NoDup]. intros; lia.
    - rewrite sort_keyed_perm.
      rewrite (@keyed_by_function decimal int_max_str_digits keyed Hk).
      rewrite (@keyed_by_function decimal int_max_str_digits target Hkt).
      apply Permutation_map. rewrite Hm, Ht.
      apply Permutation_flat_map. apply set_order_permutes. }
  rewrite S. unfold target. now rewrite map_map.
Qed.

End ContextMarkers.

(* ===================================================================== *)
(** ** Worked examples, continued *)
(* ===================================================================== *)

Lemma ascii_decimal_digits :
  forall c, (48 <= c <= 57)%N -> ascii_decimal c = Some (Z.of_N c - 48)%Z.
Proof.
  intros c [H1 H2]. unfold ascii_decimal.
  apply N.leb_le in H1. apply N.leb_le in H2. now rewrite H1, H2.
Defined.


Lemma malformed_entry_discards_the_batch_witness :
  s3_json_load_ingest plain_repr_float plain_repr_str [] Splitter.split_text
      plain_urlparse plain_client plain_uri
    (classified (PFloat 0.9%float)) (PList [anonymous_turns; PStr (lit "oops")])
  = ReturnsEmpty.
Proof.
  apply (@malformed_entry_discards_the_batch plain_repr_float plain_repr_str []
           Splitter.split_text plain_urlparse plain_client plain_uri
           (classified (PFloat 0.9%float)) (lit "work") (PFloat 0.9%float)
           (lit "il-raw-chats", lit "agent_conversation/pdf_to_json.json")).
  - vm_compute. reflexivity.
  - vm_compute. reflexivity.
  - left. exists (PStr (lit "oops")). split; [right; now left | discriminate].
Defined.

Lemma shapes_are_ingested_alike_witness :
  s3_json_load_ingest plain_repr_float plain_repr_str [] Splitter.split_text
      plain_urlparse plain_client plain_uri
    (classified (PFloat 0.9%float))
    (PDict [ (lit "data", PList [anonymous_turns]) ])
  = s3_json_load_ingest plain_repr_float plain_repr_str [] Splitter.split_text
      plain_urlparse plain_client plain_uri
      (classified (PFloat 0.9%float)) (PList [anonymous_turns]).
Proof.
  destruct (shapes_are_ingested_alike plain_repr_float plain_repr_str []
              Splitter.split_text plain_urlparse plain_client plain_uri)
    as (_ & H).
  apply H; reflexivity.
Defined.

Lemma flatten_one_unit_per_turn_in_order_witness :
  exists docs,
    flatten plain_repr_float plain_repr_str [] (lit "work") (PFloat 0.9%float) two_chats = Ok docs
    /\ List.length docs = 2.
Proof.
  destruct (flatten_one_unit_per_turn_in_order plain_repr_float plain_repr_str [])
    as (H & _).
  destruct (flatten plain_repr_float plain_repr_str [] (lit "work") (PFloat 0.9%float) two_chats) as [docs|e] eqn:E;
    [|vm_compute in E; discriminate].
  exists docs. split; [reflexivity|].
  now rewrite (H (lit "work") (PFloat 0.9%float) _ docs E).
Defined.

Lemma chunks_are_the_segments_in_order_witness :
  Forall
    (fun c => Dict.get (lit "title") (metadata c) = Some (PStr (lit "first")))
    (chunk_document plain_repr_float plain_repr_str Splitter.split_text
       (candidate "first")).
Proof.
  destruct (chunks_are_the_segments_in_order plain_repr_float plain_repr_str
              Splitter.split_text (candidate "first")) as (_ & _ & H).
  apply (H (lit "title")); discriminate.
Defined.

Lemma blank_turns_reach_the_store_with_no_chunk_witness :
  s3_json_load_ingest plain_repr_float plain_repr_str [] Splitter.split_text
      plain_urlparse plain_client plain_uri
    (classified (PFloat 0.9%float))
    (PDict [ (lit "messages", PList (map PDict [ [ (lit "turn_id", PInt 1) ] ])) ])
  = Upserts [].
Proof.
  apply (@blank_turns_reach_the_store_with_no_chunk plain_repr_float plain_repr_str
           [] Splitter.split_text plain_urlparse plain_client plain_uri
           (classified (PFloat 0.9%float)) (lit "work") (PFloat 0.9%float)
           (lit "il-raw-chats", lit "agent_conversation/pdf_to_json.json")
           [ (lit "messages", PList (map PDict [ [ (lit "turn_id", PInt 1) ] ])) ]
           [ [ (lit "turn_id", PInt 1) ] ]).
  - reflexivity.
  - reflexivity.
  - vm_compute. reflexivity.
  - vm_compute. reflexivity.
  - reflexivity.
  - discriminate.
  - repeat constructor.
Defined.

Lemma index_is_created_only_when_missing_witness :
  index_writer [ (lit "PINECONE_INDEX", lit "chats") ]
    [ listed_index "other"; listed_index "chats" ] three_candidates
  = Ok [ from_documents three_candidates (lit "chats") ].
Proof.
  destruct (@index_is_created_only_when_missing
              [ (lit "PINECONE_INDEX", lit "chats") ]
              [ listed_index "other"; listed_index "chats" ] three_candidates)
    as (H & _).
  - intros entry [<-|[<-|[]]]; eexists; reflexivity.
  - apply H. exists (listed_index "chats"). split; [right; now left | reflexivity].
Defined.

Lemma citations_of_ingested_turns_carry_stored_values_witness :
  Forall
    (fun c => forall index_str,
       title (ref_data index_str c) = PNone
       /\ chat_id (ref_data index_str c) = PStr (lit "c2")
       /\ turn_id (ref_data index_str c) = PInt 7)
    (chunk_document plain_repr_float plain_repr_str Splitter.split_text
       (mkDocument (lit "hello")
          [ (lit "chat_engine", PNone); (lit "chat_account", PNone);
            (lit "chat_id", PStr (lit "c2")); (lit "title", PNone);
            (lit "chat_creation_time", PNone); (lit "turn_id", PInt 7);
            (lit "author", PNone); (lit "turn_timestamp", PNone);
            (lit "accessibility", PStr (lit "work"));
            (lit "accessibility_confidence_score", PFloat 0.9%float) ])).
Proof.
  apply (@citations_of_ingested_turns_carry_stored_values plain_repr_float
           plain_repr_str [] Splitter.split_text (lit "work") (PFloat 0.9%float)
           [ (lit "chat_id", PStr (lit "c2")) ]
           [ (lit "turn_id", PInt 7); (lit "message", PStr (lit "hello")) ]).
  reflexivity.
Defined.

Lemma no_reference_without_marker_or_candidate_witness :
  Forall (fun c => is_open c = false) refusal
  /\ _extract_references ascii_decimal (fun l => l) 4300 refusal three_candidates
     = Ok []
  /\ _extract_references ascii_decimal (fun l => l) 4300 (lit "See [1].") [] = Ok [].
Proof.
  assert (P : Forall (fun c => is_open c = false) refusal)
    by (vm_compute; repeat constructor).
  destruct (@no_reference_without_marker_or_candidate ascii_decimal (fun l => l) 4300
              (fun l => Permutation_refl l) eq_refl eq_refl) as (H1 & H2).
  split; [exact P|]. split; [now apply H1 | apply H2].
Defined.

Lemma query_returns_the_answer_and_references_of_retrieved_witness :
  exists r,
    query ascii_decimal (fun l => l) 4300
      (fun _ _ _ => three_candidates) (fun _ _ => lit "It is in the second [2].")
      (lit "where?") (Some (lit "alice")) = Ok r
    /\ answer r = lit "It is in the second [2]."
    /\ List.length (references r) = 1.
Proof.
  destruct (@query_returns_the_answer_and_references_of_retrieved ascii_decimal
              (fun l => l) 4300 (fun l => Permutation_refl l) eq_refl eq_refl
              (fun _ _ _ => three_candidates)
              (fun _ _ => lit "It is in the second [2].")
              (lit "where?") (Some (lit "alice"))) as (r & E & A & _).
  exists r. split; [exact E|]. split; [exact A|].
  vm_compute in E. injection E as <-. reflexivity.
Defined.

Lemma references_do_not_depend_on_set_order_witness :
  _extract_references ascii_decimal (fun l => l) 4300
    (lit "A [3] and B [1].") three_candidates
  = _extract_references ascii_decimal (@rev str) 4300
      (lit "A [3] and B [1].") three_candidates.
Proof.
  apply (@references_do_not_depend_on_set_order ascii_decimal 4300
           (fun l => l) (@rev str)
           (fun l => Permutation_refl l)
           (fun l => Permutation_sym (Permutation_rev l)) eq_refl eq_refl).
  intros s s' n Hs Hs' Hn Hn'.
  vm_compute in Hs, Hs'.
  destruct Hs as [<-|[<-|[]]]; destruct Hs' as [<-|[<-|[]]];
    try reflexivity; vm_compute in Hn, Hn'; congruence.
Defined.

Lemma context_offers_the_positions_as_markers_witness :
  findall ascii_decimal (_format_docs_with_ids three_candidates)
  = [ lit "1"; lit "2"; lit "3" ].
Proof.
  rewrite (@context_offers_the_positions_as_markers ascii_decimal
             ascii_decimal_digits eq_refl three_candidates).
  - reflexivity.
  - vm_compute. repeat constructor.
Defined.

Lemma citing_every_source_gives_every_candidate_in_order_witness :
  _extract_references ascii_decimal (@rev str) 4300
    (_format_docs_with_ids three_candidates) three_candidates
  = Ok [ ref_data (lit "1") (candidate "first");
         ref_data (lit "2") (candidate "second");
         ref_data (lit "3") (candidate "third") ].
Proof.
  rewrite (@citing_every_source_gives_every_candidate_in_order ascii_decimal
             (@rev str) 4300 ascii_decimal_digits eq_refl eq_refl
             (fun l => Permutation_sym (Permutation_rev l)) three_candidates).
  - reflexivity.
  - vm_compute. repeat constructor.
  - right. intros i Hi. simpl in Hi.
    destruct i as [|[|[|i]]]; [vm_compute; lia .. | lia].
Defined.
